(** * Next-word prediction notebook: the text-to-tensor pipeline

    A shallow embedding of the data preparation cells and of
    [predict_next_word] of [LSTM_Implementation.ipynb], together with the
    library calls they make (the Keras [Tokenizer], [pad_sequences],
    [to_categorical], NumPy's [argmax], scikit-learn's [train_test_split]).
    The recurrent network itself stays abstract: it is a function from an
    input row to a row of class scores. *)

From Stdlib Require Import Ascii String.
From Stdlib Require Import QArith ZArith Arith Lia Bool.
From Stdlib Require Import List Permutation.
Import ListNotations.
Close Scope Q_scope.
Close Scope Z_scope.
Open Scope nat_scope.

Set Implicit Arguments.

(** ** Results of calls that may raise *)

Inductive outcome (A : Type) : Type :=
| Returned (a : A)
| Raised.

Arguments Returned {A} a.
Arguments Raised {A}.

Definition bind {A B} (m : outcome A) (k : A -> outcome B) : outcome B :=
  match m with
  | Returned a => k a
  | Raised => Raised
  end.

Notation "x <- m ;; k" := (bind m (fun x => k))
  (at level 61, m at next level, right associativity).

Fixpoint mapM {A B} (f : A -> outcome B) (l : list A) : outcome (list B) :=
  match l with
  | [] => Returned []
  | a :: r => b <- f a ;; bs <- mapM f r ;; Returned (b :: bs)
  end.

(** ** Python built-ins used by the notebook *)

Module Py.

(** A Python [str]; the corpus is the ASCII text of the Gutenberg file, so
    a character is an [ascii]. *)
Definition str := list ascii.

Definition str_eq_dec : forall a b : str, {a = b} + {a <> b} :=
  list_eq_dec ascii_dec.

Definition lit (s : string) : str := list_ascii_of_string s.

(** [c.lower()] on one character: only A-Z change. *)
Definition lower_char (c : ascii) : ascii :=
  let n := nat_of_ascii c in
  if (65 <=? n)%nat && (n <=? 90)%nat then ascii_of_nat (n + 32) else c.

Definition lower (s : str) : str := map lower_char s.

(** [s.split(sep)] for a one-character separator: every occurrence cuts,
    and empty pieces are kept. *)
Fixpoint split (sep : ascii) (s : str) : list str :=
  match s with
  | [] => [[]]
  | c :: r =>
      if ascii_dec c sep then [] :: split sep r
      else match split sep r with
           | h :: t => (c :: h) :: t
           | [] => [[c]]
           end
  end.

(** [range(a, b)] *)
Definition range (a b : nat) : list nat := seq a (b - a).

(** [l[a:]], with Python's reading of a negative bound. *)
Definition slice_from {A} (l : list A) (a : Z) : list A :=
  let start := if (a <? 0)%Z then (Z.of_nat (length l) + a)%Z else a in
  skipn (Z.to_nat start) l.

(** [l[:b]] *)
Definition slice_to {A} (l : list A) (b : Z) : list A :=
  let stop := if (b <? 0)%Z then (Z.of_nat (length l) + b)%Z else b in
  firstn (Z.to_nat stop) l.

(** [max(l)] raises on an empty list. *)
Definition max (l : list nat) : outcome nat :=
  match l with
  | [] => Raised
  | a :: r => Returned (fold_left Nat.max r a)
  end.

End Py.

(** ** Insertion-ordered dictionaries *)

Module Dict.
Section Dict.
Variable V : Type.

Definition t := list (Py.str * V).

(** [d.get(k)] *)
Fixpoint get (d : t) (k : Py.str) : option V :=
  match d with
  | [] => None
  | (k', v) :: r => if Py.str_eq_dec k k' then Some v else get r k
  end.

(** [d[k] = v]: an existing key keeps its place. *)
Fixpoint set (d : t) (k : Py.str) (v : V) : t :=
  match d with
  | [] => [(k, v)]
  | (k', v') :: r =>
      if Py.str_eq_dec k k' then (k', v) :: r else (k', v') :: set r k v
  end.

(** [dict(pairs)] *)
Definition of_items (l : list (Py.str * V)) : t :=
  fold_left (fun d kv => set d (fst kv) (snd kv)) l [].

Definition keys (d : t) : list Py.str := map fst d.
Definition values (d : t) : list V := map snd d.
End Dict.
End Dict.

(** ** NumPy *)

Module Np.

(** [a[i] = v] on one axis; the index is in range wherever it is used. *)
Fixpoint upd (l : list nat) (i v : nat) : list nat :=
  match l, i with
  | [], _ => []
  | _ :: r, 0 => v :: r
  | a :: r, S i' => a :: upd r i' v
  end.

(** Scan of [argmax]: the running best is replaced only by a strictly
    larger score, so the first maximum wins. The scores of the notebook are
    floats; [argmax] only compares them, and they are rationals here. *)
Fixpoint argmax_scan (l : list Q) (i best_i : nat) (best : Q) : nat :=
  match l with
  | [] => best_i
  | v :: r =>
      if Qle_bool v best then argmax_scan r (S i) best_i best
      else argmax_scan r (S i) i v
  end.

(** [np.argmax(row)]; an empty row raises. *)
Definition argmax (row : list Q) : outcome nat :=
  match row with
  | [] => Raised
  | v :: r => Returned (argmax_scan r 1 0 v)
  end.

(** [np.argmax(m, axis=1)] *)
Definition argmax_axis1 (m : list (list Q)) : outcome (list nat) :=
  mapM argmax m.

(** Truth value of [index == arr] for an integer and an integer array:
    defined for a one-element array only. *)
Definition truth_eq (index : nat) (arr : list nat) : outcome bool :=
  match arr with
  | [j] => Returned (index =? j)
  | _ => Raised
  end.

End Np.

(** ** Keras preprocessing *)

Module Keras.

(** The default [filters] of [Tokenizer]: punctuation without the
    apostrophe, tab and newline. *)
Definition filters : list ascii :=
  map ascii_of_nat
    [33; 34; 35; 36; 37; 38; 40; 41; 42; 43; 44; 45; 46; 47;
     58; 59; 60; 61; 62; 63; 64; 91; 92; 93; 94; 95; 96;
     123; 124; 125; 126; 9; 10].

Definition space : ascii := ascii_of_nat 32.

Definition translate (c : ascii) : ascii :=
  if in_dec ascii_dec c filters then space else c.

Definition nonempty (s : Py.str) : bool :=
  match s with [] => false | _ => true end.

(** [text_to_word_sequence(text)] with the default arguments
    ([lower=True], [split=' ']). *)
Definition text_to_word_sequence (input_text : Py.str) : list Py.str :=
  let input_text := Py.lower input_text in
  let input_text := map translate input_text in
  let seq := Py.split space input_text in
  filter nonempty seq.

Record Tokenizer : Type := {
  word_counts : Dict.t nat;
  word_index : Dict.t nat
}.

(** [Tokenizer()] *)
Definition new : Tokenizer := {| word_counts := []; word_index := [] |}.

(** One step of the counting loop. *)
Definition count_word (wc : Dict.t nat) (w : Py.str) : Dict.t nat :=
  match Dict.get wc w with
  | Some c => Dict.set wc w (c + 1)
  | None => Dict.set wc w 1
  end.

(** [wcounts.sort(key=lambda x: x[1], reverse=True)]: Python's sort is
    stable, also under [reverse]. *)
Fixpoint insert_desc (x : Py.str * nat) (l : list (Py.str * nat))
  : list (Py.str * nat) :=
  match l with
  | [] => [x]
  | y :: r => if snd x <? snd y then y :: insert_desc x r else x :: y :: r
  end.

Definition sort_desc (l : list (Py.str * nat)) : list (Py.str * nat) :=
  fold_right insert_desc [] l.

(** [tokenizer.fit_on_texts(texts)], with [oov_token=None]. The document
    counts kept beside [word_counts] are read by no cell and are left
    out. *)
Definition fit_on_texts (tok : Tokenizer) (texts : list Py.str) : Tokenizer :=
  let wc :=
    fold_left
      (fun wc text => fold_left count_word (text_to_word_sequence text) wc)
      texts (word_counts tok) in
  let wcounts := sort_desc wc in
  let sorted_voc := map fst wcounts in
  {| word_counts := wc;
     word_index :=
       Dict.of_items
         (combine sorted_voc (Py.range 1 (length sorted_voc + 1))) |}.

(** [tokenizer.texts_to_sequences(texts)], with [num_words=None] and
    [oov_token=None]: a word without an index is skipped. *)
Definition text_to_sequence (tok : Tokenizer) (text : Py.str) : list nat :=
  fold_left
    (fun vect w =>
       match Dict.get (word_index tok) w with
       | Some i => vect ++ [i]
       | None => vect
       end)
    (text_to_word_sequence text) [].

Definition texts_to_sequences (tok : Tokenizer) (texts : list Py.str)
  : list (list nat) :=
  map (text_to_sequence tok) texts.

(** One row of [pad_sequences(..., maxlen, padding='pre')] (truncating
    is 'pre' by default, the fill value 0). The row starts as [maxlen]
    zeros; an empty sequence leaves it so; otherwise
    [x[idx, -len(trunc):] = trunc] with [trunc = s[-maxlen:]], an
    assignment that fits, or broadcasts a single value, or raises. The
    matrix holds int32, which is exact for ids below [2^31]. *)
Definition pad_row (maxlen : Z) (s : list nat) : outcome (list nat) :=
  let x := repeat 0 (Z.to_nat maxlen) in
  match s with
  | [] => Returned x
  | _ :: _ =>
      let trunc := Py.slice_from s (- maxlen) in
      let target := Py.slice_from x (- Z.of_nat (length trunc)) in
      if length trunc =? length target then
        Returned (firstn (length x - length target) x ++ trunc)
      else if length trunc =? 1 then
        Returned (firstn (length x - length target) x
                    ++ repeat (hd 0 trunc) (length target))
      else Raised
  end.

(** [pad_sequences(sequences, maxlen=maxlen, padding='pre')]; allocating
    the matrix raises for a negative width. *)
Definition pad_sequences (sequences : list (list nat)) (maxlen : Z)
  : outcome (list (list nat)) :=
  if (maxlen <? 0)%Z then Raised else mapM (pad_row maxlen) sequences.

(** [to_categorical(y, num_classes=num_classes)]: a row of zeros per
    label with a one written at the label, which raises when the label is
    not a column. *)
Definition to_categorical (y : list nat) (num_classes : nat)
  : outcome (list (list nat)) :=
  num_classes <-
    (if num_classes =? 0 then m <- Py.max y ;; Returned (m + 1)
     else Returned num_classes) ;;
  mapM (fun c =>
          if c <? num_classes then Returned (Np.upd (repeat 0 num_classes) c 1)
          else Raised)
       y.

End Keras.

(** ** scikit-learn *)

Module Sk.

(** The literal [0.2] as a binary64: [test_size_m * 2^-54]. *)
Definition test_size_m : Z := 3602879701896397.

(** Rounding of the exact positive value [p * 2^-54] to binary64 (53-bit
    significand, to nearest, ties to even); the result is again scaled by
    [2^54]. *)
Definition round_binary64 (p : Z) : Z :=
  let shift := (Z.log2 p - 52)%Z in
  if (shift <=? 0)%Z then p
  else
    let q := (p / 2 ^ shift)%Z in
    let r := (p mod 2 ^ shift)%Z in
    let half := (2 ^ (shift - 1))%Z in
    let q' :=
      if (half <? r)%Z || ((r =? half)%Z && Z.odd q) then (q + 1)%Z else q in
    (q' * 2 ^ shift)%Z.

(** [math.ceil] of [v * 2^-54] *)
Definition ceil54 (v : Z) : Z := ((v + 2 ^ 54 - 1) / 2 ^ 54)%Z.

(** [ceil(test_size * n_samples)] for [test_size = 0.2]; the sample count
    converts to a float exactly below [2^53]. *)
Definition n_test_of (n_samples : nat) : nat :=
  Z.to_nat (ceil54 (round_binary64 (test_size_m * Z.of_nat n_samples))).

(** [a[indices]] along the first axis *)
Definition take (a : list (list nat)) (indices : list nat) : list (list nat) :=
  map (fun i => nth i a []) indices.

(** [train_test_split(X, y, test_size=0.2)], which shuffles and does not
    stratify. Arrays of different lengths are refused, and so is a split
    that leaves the train set empty. The shuffle is
    [permutation], the result of [rng.permutation(n_samples)]; the test
    indices are its first [n_test] entries and the train indices the
    [n_train] after them. *)
Definition train_test_split (permutation : list nat) (X y : list (list nat))
  : outcome (list (list nat) * list (list nat)
             * list (list nat) * list (list nat)) :=
  if negb (length X =? length y) then Raised
  else
    let n_samples := length X in
    let n_test := n_test_of n_samples in
    let n_train := n_samples - n_test in
    if n_train =? 0 then Raised
    else
      let ind_test := firstn n_test permutation in
      let ind_train := firstn n_train (skipn n_test permutation) in
      Returned (take X ind_train, take X ind_test,
                take y ind_train, take y ind_test).

End Sk.

(** ** The notebook *)

Module Notebook.
Import Keras.

Definition newline : ascii := ascii_of_nat 10.

(** Cell 7 *)
Definition tokenizer (text : Py.str) : Tokenizer := fit_on_texts new [text].

Definition total_words (tok : Tokenizer) : nat :=
  length (word_index tok) + 1.

(** Cell 9, inner loop: the prefixes [token_list[:i+1]] for
    [i in range(1, len(token_list))], appended in turn. *)
Definition append_ngrams (token_list : list nat)
    (input_sequences : list (list nat)) : list (list nat) :=
  fold_left
    (fun acc i => acc ++ [Py.slice_to token_list (Z.of_nat (i + 1))])
    (Py.range 1 (length token_list)) input_sequences.

(** Cell 9 *)
Definition input_sequences (tok : Tokenizer) (text : Py.str)
  : list (list nat) :=
  fold_left
    (fun acc line =>
       let token_list := hd [] (texts_to_sequences tok [line]) in
       append_ngrams token_list acc)
    (Py.split newline text) [].

(** Cell 11 *)
Definition max_sequence_len (input_sequences : list (list nat))
  : outcome nat :=
  Py.max (map (@length nat) input_sequences).

(** [a[:, -1]]: the last column, which a matrix without columns lacks. *)
Definition last_col (row : list nat) : outcome nat :=
  match rev row with
  | [] => Raised
  | v :: _ => Returned v
  end.

Record prepared : Type := {
  p_tokenizer : Tokenizer;
  p_total_words : nat;
  p_max_sequence_len : nat;
  p_input_sequences : list (list nat);
  p_X : list (list nat);
  p_labels : list nat;
  p_y : list (list nat)
}.

(** Cells 7 to 13 in sequence. *)
Definition prepare (text : Py.str) : outcome prepared :=
  let tok := tokenizer text in
  let total := total_words tok in
  let seqs := input_sequences tok text in
  W <- max_sequence_len seqs ;;
  padded <- pad_sequences seqs (Z.of_nat W) ;;
  let X := map (fun row => Py.slice_to row (-1)) padded in
  labels <- mapM last_col padded ;;
  y <- to_categorical labels total ;;
  Returned {| p_tokenizer := tok;
              p_total_words := total;
              p_max_sequence_len := W;
              p_input_sequences := padded;
              p_X := X;
              p_labels := labels;
              p_y := y |}.

(** The loop over [tokenizer.word_index.items()] that ends
    [predict_next_word]: the first word whose index equals the predicted
    one, or [None]. *)
Fixpoint first_match (items : list (Py.str * nat))
    (predicted_word_index : list nat) : outcome (option Py.str) :=
  match items with
  | [] => Returned None
  | (word, index) :: r =>
      b <- Np.truth_eq index predicted_word_index ;;
      if b then Returned (Some word)
      else first_match r predicted_word_index
  end.

(** The tensor [predict_next_word] hands to [model.predict]. *)
Definition predictor_input (tok : Tokenizer) (text : Py.str)
    (max_sequence_len : Z) : outcome (list (list nat)) :=
  let token_list := hd [] (texts_to_sequences tok [text]) in
  let token_list :=
    if (Z.of_nat (length token_list) >=? max_sequence_len)%Z
    then Py.slice_from token_list (- (max_sequence_len - 1))
    else token_list in
  pad_sequences [token_list] (max_sequence_len - 1).

(** Cell 21. The network is [model]: it maps each input row to a row of
    class scores. *)
Definition predict_next_word (model : list nat -> list Q) (tok : Tokenizer)
    (text : Py.str) (max_sequence_len : Z) : outcome (option Py.str) :=
  token_list <- predictor_input tok text max_sequence_len ;;
  let predicted := map model token_list in
  predicted_word_index <- Np.argmax_axis1 predicted ;;
  first_match (word_index tok) predicted_word_index.

End Notebook.

(** ** Notions the statements and proofs below are phrased in *)

Module Spec.

(** The prefixes of lengths 2, ..., [length token_list]. *)
Definition prefixes (token_list : list nat) : list (list nat) :=
  map (fun k => firstn k token_list) (seq 2 (length token_list - 1)).

(** What the expander owes one line: [length token_list - 1] sequences,
    the one of length [k] being the first [k] ids, for [k] from 2 to the
    length of the line; nothing for a line of fewer than two ids. *)
Definition expands_to (token_list : list nat) (produced : list (list nat))
  : Prop :=
  let N := length token_list in
  (2 <= N ->
   length produced = N - 1
   /\ forall k, 2 <= k <= N ->
        nth (k - 2) produced [] = firstn k token_list
        /\ length (nth (k - 2) produced []) = k
        /\ last (nth (k - 2) produced []) 0 = nth (k - 1) token_list 0)
  /\ (N < 2 -> produced = []).

(** Re-trimming a padded row: the leading zeros are removed. *)
Fixpoint strip_zeros (row : list nat) : list nat :=
  match row with
  | 0 :: r => strip_zeros r
  | _ => row
  end.

(** [j] is the first position of a maximum of [row]. *)
Definition first_max (row : list Q) (j : nat) : Prop :=
  j < length row
  /\ (forall i, i < length row -> (nth i row 0 <= nth j row 0)%Q)
  /\ (forall i, i < j -> (nth i row 0 < nth j row 0)%Q).

(** A one-hot row with [n] classes and its one at [c]. *)
Definition one_hot_at (n c : nat) (row : list nat) : Prop :=
  length row = n /\ c < n
  /\ forall j, j < n -> nth j row 0 = if j =? c then 1 else 0.

(** The words of the fitted vocabulary, in index order. *)
Definition sorted_voc (text : Py.str) : list Py.str :=
  map fst
    (Keras.sort_desc
       (fold_left Keras.count_word (Keras.text_to_word_sequence text) [])).

(** What one word contributes to a token list. *)
Definition id_of (tok : Keras.Tokenizer) (w : Py.str) : list nat :=
  match Dict.get (Keras.word_index tok) w with
  | Some i => [i]
  | None => []
  end.

(** [round(0.2 * N)]: the integer nearest to [N / 5] (no tie occurs). *)
Definition round_fifth (N : nat) : nat := (2 * N + 5) / 10.

End Spec.

(** ** A small corpus to run the cells on *)

Module Sample.

(** Two lines: "the king is dead" and "long live the king". *)
Definition corpus : Py.str :=
  Py.lit "the king is dead" ++ [Notebook.newline] ++ Py.lit "long live the king".

Definition tokenizer : Keras.Tokenizer := Notebook.tokenizer corpus.

(** One line of fourteen distinct words, and an input of twenty words. *)
Definition letters : Py.str := Py.lit "a b c d e f g h i j k l m n".

Definition twenty_words : Py.str :=
  Py.lit "a b c d e f g h i j k l m n a b c d e f".

Definition letter_tokenizer : Keras.Tokenizer := Notebook.tokenizer letters.

(** A network that puts all the weight on class 1, whatever it reads. *)
Definition model (row : list nat) : list Q :=
  [0; 1; 0; 0; 0; 0; 0]%Q.

End Sample.

(** ** The remaining cells *)

Module Cells.

(** Cell 5: the corpus is the content of the file, lower-cased. *)
Definition read_text (data : Py.str) : Py.str := Py.lower data.




End Cells.

(** ** Further notions for the statements below *)

Module Notions.

(** [sep.join(pieces)] for a one-character separator. *)
Fixpoint join (sep : ascii) (pieces : list Py.str) : Py.str :=
  match pieces with
  | [] => []
  | [l] => l
  | l :: r => l ++ sep :: join sep r
  end.

(** The last [k] elements of a list (all of it when it is shorter). *)
Definition lastn {A} (k : nat) (l : list A) : list A :=
  skipn (length l - k) l.

(** [w1] occurs in [ws], and [w2] does not occur before the first
    occurrence of [w1]. *)
Definition occurs_first (ws : list Py.str) (w1 w2 : Py.str) : Prop :=
  exists p q, ws = p ++ w1 :: q /\ ~ In w1 p /\ ~ In w2 p.

(** [x] stands at a position of [l] with [y] somewhere after it. *)
Fixpoint before {A} (l : list A) (x y : A) : Prop :=
  match l with
  | [] => False
  | z :: r => (z = x /\ In y r) \/ before r x y
  end.

End Notions.

(** * Properties *)

(** ** Calls that may raise *)

Lemma mapM_total {A B} (f : A -> outcome B) (g : A -> B) (l : list A) :
  (forall a, In a l -> f a = Returned (g a)) ->
  mapM f l = Returned (map g l).
Proof.
  induction l as [|a r IH]; intros Hf; simpl.
  - reflexivity.
  - rewrite (Hf a (or_introl eq_refl)). simpl.
    rewrite IH by (intros; apply Hf; now right). reflexivity.
Qed.

Lemma mapM_Returned {A B} (f : A -> outcome B) (l : list A) (bs : list B) :
  mapM f l = Returned bs -> Forall2 (fun a b => f a = Returned b) l bs.
Proof.
  revert bs. induction l as [|a r IH]; intros bs; simpl.
  - intros [= <-]. constructor.
  - destruct (f a) as [b|] eqn:Hb; simpl; [|discriminate].
    destruct (mapM f r) as [bs'|] eqn:Hr; simpl; [|discriminate].
    intros [= <-]. constructor; auto.
Qed.

(** ** Loops that append *)

Lemma fold_left_snoc {A B} (f : B -> A) (l : list B) (acc : list A) :
  fold_left (fun acc i => acc ++ [f i]) l acc = acc ++ map f l.
Proof.
  revert acc. induction l as [|b r IH]; intros acc; simpl.
  - now rewrite app_nil_r.
  - rewrite IH, <- app_assoc. reflexivity.
Qed.

Lemma fold_left_extend {A B} (f : B -> list A) (l : list B) (acc : list A) :
  fold_left (fun acc b => acc ++ f b) l acc = acc ++ flat_map f l.
Proof.
  revert acc. induction l as [|b r IH]; intros acc; simpl.
  - now rewrite app_nil_r.
  - rewrite IH, <- app_assoc. reflexivity.
Qed.

Lemma fold_left_pointwise {A B} (f g : A -> B -> A) (l : list B) (a : A) :
  (forall a b, f a b = g a b) -> fold_left f l a = fold_left g l a.
Proof.
  intros Hfg. revert a. induction l as [|b r IH]; intros a; simpl.
  - reflexivity.
  - now rewrite Hfg, IH.
Qed.

(** ** Slices *)

Lemma slice_to_nat {A} (l : list A) (k : nat) :
  Py.slice_to l (Z.of_nat k) = firstn k l.
Proof.
  unfold Py.slice_to.
  destruct (Z.ltb_spec (Z.of_nat k) 0); [lia|].
  now rewrite Nat2Z.id.
Qed.

Lemma slice_to_minus1 {A} (l : list A) :
  Py.slice_to l (-1) = firstn (length l - 1) l.
Proof.
  unfold Py.slice_to. simpl. f_equal. lia.
Qed.

Lemma slice_from_last {A} (l : list A) (k : nat) :
  1 <= k ->
  Py.slice_from l (- Z.of_nat k) = skipn (length l - k) l.
Proof.
  intros Hk. unfold Py.slice_from.
  destruct (Z.ltb_spec (- Z.of_nat k) 0); [|lia].
  f_equal. lia.
Qed.

(** ** The sequence expander (cell 9) *)

Section Expander.
Import Keras Notebook.

Lemma append_ngrams_spec (token_list : list nat) (acc : list (list nat)) :
  append_ngrams token_list acc = acc ++ Spec.prefixes token_list.
Proof.
  unfold append_ngrams, Spec.prefixes, Py.range.
  rewrite fold_left_snoc. f_equal.
  rewrite <- (seq_shift (length token_list - 1) 1), map_map.
  apply map_ext. intros i. rewrite slice_to_nat. f_equal. lia.
Qed.

Lemma input_sequences_spec (tok : Tokenizer) (text : Py.str) :
  input_sequences tok text =
  flat_map (fun line => Spec.prefixes (text_to_sequence tok line))
           (Py.split newline text).
Proof.
  unfold input_sequences.
  rewrite <- (app_nil_l (flat_map _ _)).
  rewrite <- fold_left_extend.
  apply fold_left_pointwise. intros acc line. simpl.
  apply append_ngrams_spec.
Qed.

Lemma prefixes_length (l : list nat) :
  length (Spec.prefixes l) = length l - 1.
Proof. unfold Spec.prefixes. now rewrite length_map, length_seq. Qed.

Lemma prefixes_nth (l : list nat) (k : nat) :
  2 <= k <= length l ->
  nth (k - 2) (Spec.prefixes l) [] = firstn k l.
Proof.
  intros Hk. unfold Spec.prefixes.
  rewrite (nth_indep _ [] (firstn 0 l))
    by (rewrite length_map, length_seq; lia).
  rewrite (map_nth (fun k => firstn k l)), seq_nth by lia.
  f_equal. lia.
Qed.

Lemma prefixes_In (l s : list nat) :
  In s (Spec.prefixes l) <->
  exists k, 2 <= k <= length l /\ s = firstn k l.
Proof.
  unfold Spec.prefixes. rewrite in_map_iff. split.
  - intros (k & <- & Hk). apply in_seq in Hk. exists k. split; [lia|easy].
  - intros (k & Hk & ->). exists k. split; [easy|]. apply in_seq. lia.
Qed.

Lemma firstn_last (l : list nat) (k : nat) :
  1 <= k <= length l ->
  last (firstn k l) 0 = nth (k - 1) l 0.
Proof.
  revert k. induction l as [|a r IH]; intros k Hk; simpl in *; [lia|].
  destruct k as [|k]; [lia|]. simpl.
  destruct k as [|k]; [reflexivity|].
  destruct r as [|b r']; simpl in *; [lia|].
  specialize (IH (S k)). simpl in IH. rewrite IH by lia.
  now rewrite Nat.sub_0_r.
Qed.

End Expander.

Section ExpanderClaim.
Import Keras Notebook.

Lemma prefixes_expands (l : list nat) : Spec.expands_to l (Spec.prefixes l).
Proof.
  split.
  - intros HN. split; [apply prefixes_length|].
    intros k Hk. rewrite prefixes_nth by easy.
    repeat split.
    + apply firstn_length_le. lia.
    + apply firstn_last. lia.
  - intros HN. unfold Spec.prefixes.
    replace (length l - 1) with 0 by lia. reflexivity.
Qed.

(** C1. The sequences of cell 9 are the concatenation, line by line, of
    what each line yields; a line whose tokenization has [N >= 2] ids
    yields exactly [N - 1] sequences, the one of length [k] (for [k] from
    2 to [N]) being the first [k] ids of the line and so ending in the
    line's [k]-th id; a line of fewer than two ids yields nothing. *)
Theorem expander_yields_prefixes (tok : Tokenizer) (text : Py.str) :
  exists per_line : list (list (list nat)),
    input_sequences tok text = concat per_line
    /\ Forall2
         (fun line produced =>
            Spec.expands_to (hd [] (texts_to_sequences tok [line])) produced)
         (Py.split newline text) per_line.
Proof.
  exists (map (fun line => Spec.prefixes (text_to_sequence tok line))
              (Py.split newline text)).
  split.
  - rewrite input_sequences_spec. apply flat_map_concat_map.
  - induction (Py.split newline text) as [|line r IH]; simpl;
      constructor; auto.
    apply prefixes_expands.
Qed.

End ExpanderClaim.

(** ** Dictionaries *)

Section DictFacts.
Variable V : Type.
Implicit Types (d : Dict.t V) (k : Py.str) (v : V).

Ltac key_cases k k' :=
  destruct (Py.str_eq_dec k k') as [?|?];
  try subst k'; simpl; try congruence.

Lemma get_some_in d k v : Dict.get d k = Some v -> In (k, v) d.
Proof.
  induction d as [|[k' v'] r IH]; simpl; [discriminate|].
  key_cases k k'.
  - intros [= ->]. now left.
  - intros H. right. auto.
Qed.

Lemma get_none_iff d k : Dict.get d k = None <-> ~ In k (Dict.keys d).
Proof.
  induction d as [|[k' v'] r IH]; simpl; [tauto|].
  key_cases k k'.
  - split; [discriminate|]. intros H. exfalso. apply H. now left.
  - rewrite IH. split; [intros H [E|Hin]; auto|tauto].
Qed.

Lemma in_get_some d k v :
  NoDup (Dict.keys d) -> In (k, v) d -> Dict.get d k = Some v.
Proof.
  induction d as [|[k' v'] r IH]; simpl; [tauto|].
  intros Hnd Hin. apply NoDup_cons_iff in Hnd as [Hk' Hr].
  destruct Hin as [E|Hin].
  - injection E as E1 E2. rewrite E1, E2.
    destruct (Py.str_eq_dec k k); congruence.
  - destruct (Py.str_eq_dec k k') as [E|NE]; [|auto].
    exfalso. apply Hk'. rewrite <- E.
    change k with (fst (k, v)). now apply in_map.
Qed.

Lemma get_some_key d k v : Dict.get d k = Some v -> In k (Dict.keys d).
Proof.
  intros H. apply get_some_in in H.
  change k with (fst (k, v)). now apply in_map.
Qed.

Lemma get_some_value d k v : Dict.get d k = Some v -> In v (Dict.values d).
Proof.
  intros H. apply get_some_in in H.
  change v with (snd (k, v)). now apply in_map.
Qed.

Lemma set_absent d k v :
  ~ In k (Dict.keys d) -> Dict.set d k v = d ++ [(k, v)].
Proof.
  induction d as [|[k' v'] r IH]; simpl; [reflexivity|].
  intros H. key_cases k k'; [tauto|]. rewrite IH; tauto.
Qed.

Lemma set_present_keys d k v :
  In k (Dict.keys d) -> Dict.keys (Dict.set d k v) = Dict.keys d.
Proof.
  induction d as [|[k' v'] r IH]; simpl; [tauto|].
  intros H. key_cases k k'. f_equal. apply IH. destruct H; congruence.
Qed.

Lemma keys_set d k v :
  Dict.keys (Dict.set d k v) =
  if in_dec Py.str_eq_dec k (Dict.keys d) then Dict.keys d
  else Dict.keys d ++ [k].
Proof.
  destruct (in_dec Py.str_eq_dec k (Dict.keys d)) as [Hin|Hout].
  - now apply set_present_keys.
  - rewrite set_absent by easy. unfold Dict.keys.
    now rewrite map_app.
Qed.

(** Distinct keys make [dict(pairs)] the pairs themselves, in order. *)
Lemma of_items_distinct (l : list (Py.str * V)) :
  NoDup (map fst l) -> Dict.of_items l = l.
Proof.
  unfold Dict.of_items.
  assert (G : forall d, NoDup (map fst (d ++ l)) ->
            fold_left (fun d kv => Dict.set d (fst kv) (snd kv)) l d
            = d ++ l).
  { induction l as [|[k v] r IH]; intros d Hnd; simpl.
    - now rewrite app_nil_r.
    - rewrite set_absent.
      + rewrite IH; rewrite <- app_assoc; [reflexivity|exact Hnd].
      + rewrite map_app in Hnd. simpl in Hnd.
        apply NoDup_remove_2 in Hnd. intros Hin. apply Hnd.
        apply in_or_app. now left. }
  intros Hnd. now apply (G []).
Qed.

End DictFacts.

(** ** The vocabulary builder (cell 7) *)

Lemma combine_fst {A B} (a : list A) (b : list B) :
  length a = length b -> map fst (combine a b) = a.
Proof.
  revert b. induction a as [|x a IH]; intros [|y b]; simpl; try easy.
  intros [= H]. now rewrite IH.
Qed.

Lemma combine_snd {A B} (a : list A) (b : list B) :
  length a = length b -> map snd (combine a b) = b.
Proof.
  revert b. induction a as [|x a IH]; intros [|y b]; simpl; try easy.
  intros [= H]. now rewrite IH.
Qed.

Section Vocabulary.
Import Keras Notebook.

Lemma count_word_keys (wc : Dict.t nat) (w : Py.str) :
  Dict.keys (count_word wc w) =
  if in_dec Py.str_eq_dec w (Dict.keys wc) then Dict.keys wc
  else Dict.keys wc ++ [w].
Proof.
  unfold count_word. destruct (Dict.get wc w); apply keys_set.
Qed.

Lemma counted_keys_nodup (ws : list Py.str) (wc : Dict.t nat) :
  NoDup (Dict.keys wc) -> NoDup (Dict.keys (fold_left count_word ws wc)).
Proof.
  revert wc. induction ws as [|w r IH]; intros wc Hnd; simpl; [easy|].
  apply IH. rewrite count_word_keys.
  destruct (in_dec Py.str_eq_dec w (Dict.keys wc)) as [Hin|Hout]; [easy|].
  apply NoDup_app; [easy|repeat constructor; easy|].
  intros x Hx [<-|[]]. easy.
Qed.

Lemma counted_keys_in (ws : list Py.str) (wc : Dict.t nat) (w : Py.str) :
  In w (Dict.keys (fold_left count_word ws wc)) <->
  In w (Dict.keys wc) \/ In w ws.
Proof.
  revert wc. induction ws as [|w' r IH]; intros wc; simpl; [tauto|].
  rewrite IH, count_word_keys.
  destruct (in_dec Py.str_eq_dec w' (Dict.keys wc)) as [Hin|Hout].
  - split; [tauto|]. intros [H|[<-|H]]; auto.
  - rewrite in_app_iff. simpl. tauto.
Qed.

Lemma insert_desc_perm (x : Py.str * nat) (l : list (Py.str * nat)) :
  Permutation (insert_desc x l) (x :: l).
Proof.
  induction l as [|y r IH]; simpl; [reflexivity|].
  destruct (snd x <? snd y); [|reflexivity].
  rewrite IH. apply perm_swap.
Qed.

Lemma sort_desc_perm (l : list (Py.str * nat)) :
  Permutation (sort_desc l) l.
Proof.
  induction l as [|x r IH]; simpl; [reflexivity|].
  rewrite insert_desc_perm. now constructor.
Qed.

Lemma sorted_voc_nodup (text : Py.str) : NoDup (Spec.sorted_voc text).
Proof.
  unfold Spec.sorted_voc.
  eapply Permutation_NoDup.
  - apply Permutation_map. symmetry. apply sort_desc_perm.
  - apply (counted_keys_nodup _ []). constructor.
Qed.

Lemma sorted_voc_in (text : Py.str) (w : Py.str) :
  In w (Spec.sorted_voc text) <-> In w (text_to_word_sequence text).
Proof.
  unfold Spec.sorted_voc.
  transitivity
    (In w (Dict.keys (fold_left count_word (text_to_word_sequence text) []))).
  - split; apply Permutation_in, Permutation_map;
      [|symmetry]; apply sort_desc_perm.
  - rewrite counted_keys_in. simpl. tauto.
Qed.

Lemma word_index_fit (text : Py.str) :
  word_index (tokenizer text) =
  combine (Spec.sorted_voc text) (seq 1 (length (Spec.sorted_voc text))).
Proof.
  unfold tokenizer, fit_on_texts. simpl. fold (Spec.sorted_voc text).
  unfold Py.range. replace (length (Spec.sorted_voc text) + 1 - 1)
    with (length (Spec.sorted_voc text)) by lia.
  apply of_items_distinct.
  rewrite combine_fst by now rewrite length_seq.
  apply sorted_voc_nodup.
Qed.

Lemma word_index_keys (text : Py.str) :
  Dict.keys (word_index (tokenizer text)) = Spec.sorted_voc text.
Proof.
  rewrite word_index_fit. apply combine_fst. now rewrite length_seq.
Qed.

Lemma word_index_values (text : Py.str) :
  Dict.values (word_index (tokenizer text)) =
  seq 1 (length (word_index (tokenizer text))).
Proof.
  rewrite word_index_fit, length_combine, length_seq, Nat.min_id.
  apply combine_snd. now rewrite length_seq.
Qed.

End Vocabulary.

Section VocabularyClaim.
Import Keras Notebook.

Lemma seq_1_bounds (n i : nat) : In i (seq 1 n) <-> 1 <= i <= n.
Proof. rewrite in_seq. lia. Qed.

Lemma values_injective (d : Dict.t nat) (w1 w2 : Py.str) (i : nat) :
  NoDup (Dict.values d) ->
  Dict.get d w1 = Some i -> Dict.get d w2 = Some i -> w1 = w2.
Proof.
  induction d as [|[k v] r IH]; simpl; [discriminate|].
  intros Hnd H1 H2. apply NoDup_cons_iff in Hnd as [Hv Hr].
  destruct (Py.str_eq_dec w1 k) as [E1|N1], (Py.str_eq_dec w2 k) as [E2|N2].
  - congruence.
  - exfalso. apply Hv. injection H1 as ->. eapply get_some_value, H2.
  - exfalso. apply Hv. injection H2 as ->. eapply get_some_value, H1.
  - now apply IH.
Qed.

Lemma value_has_key (d : Dict.t nat) (i : nat) :
  NoDup (Dict.keys d) -> In i (Dict.values d) ->
  exists w, Dict.get d w = Some i.
Proof.
  intros Hnd Hin. apply in_map_iff in Hin as ([w v] & Hv & Hin).
  simpl in Hv. subst v. exists w. now apply in_get_some.
Qed.

(** C6. The fitted vocabulary is one-to-one between the distinct words of
    the corpus and the ids [1 .. n]: each word has one entry, a word is in
    the mapping exactly when it occurs in the corpus, two words never share
    an id, every id is positive (so 0 is assigned to no word) and every id
    from 1 to [n] is used; [total_words] is the size of the mapping plus
    one, the number of distinct words plus one. *)
Theorem vocabulary_bijection (text : Py.str) :
  let tok := tokenizer text in
  let wi := word_index tok in
  NoDup (Dict.keys wi)
  /\ (forall w, In w (text_to_word_sequence text) <->
                exists i, Dict.get wi w = Some i)
  /\ (forall w1 w2 i,
        Dict.get wi w1 = Some i -> Dict.get wi w2 = Some i -> w1 = w2)
  /\ (forall w i, Dict.get wi w = Some i -> 1 <= i <= length wi)
  /\ (forall i, 1 <= i <= length wi -> exists w, Dict.get wi w = Some i)
  /\ (forall w, Dict.get wi w <> Some 0)
  /\ total_words tok = length wi + 1
  /\ length wi =
     length (nodup Py.str_eq_dec (text_to_word_sequence text)).
Proof.
  intros tok wi.
  assert (Hk : NoDup (Dict.keys wi))
    by (unfold wi, tok; rewrite word_index_keys; apply sorted_voc_nodup).
  assert (Hv : Dict.values wi = seq 1 (length wi))
    by apply word_index_values.
  assert (Hpos : forall w i, Dict.get wi w = Some i -> 1 <= i <= length wi).
  { intros w i H. apply get_some_value in H. rewrite Hv in H.
    now apply seq_1_bounds. }
  repeat split; try (now apply (Hpos w i)).
  - exact Hk.
  - intros Hin. apply sorted_voc_in in Hin.
    rewrite <- word_index_keys in Hin. fold tok wi in Hin.
    destruct (Dict.get wi w) as [i|] eqn:E; [now exists i|].
    now apply get_none_iff in E.
  - intros [i Hi]. apply sorted_voc_in.
    rewrite <- word_index_keys. eapply get_some_key, Hi.
  - intros w1 w2 i. apply values_injective. rewrite Hv. apply seq_NoDup.
  - intros i Hi. apply value_has_key; [exact Hk|].
    rewrite Hv. now apply seq_1_bounds.
  - intros w H. apply Hpos in H. lia.
  - replace (length wi) with (length (Dict.keys wi))
      by apply length_map.
    unfold wi, tok. rewrite word_index_keys.
    apply Permutation_length, NoDup_Permutation.
    + apply sorted_voc_nodup.
    + apply NoDup_nodup.
    + intros w. rewrite sorted_voc_in, nodup_In. tauto.
Qed.

End VocabularyClaim.

(** ** Padding (cell 11) *)

Section Padding.
Import Keras Notebook.

Lemma repeat_firstn {A} (a : A) (n k : nat) :
  firstn k (repeat a n) = repeat a (Nat.min k n).
Proof.
  revert k. induction n as [|n IH]; intros [|k]; simpl; try reflexivity.
  now rewrite IH.
Qed.

(** A sequence no longer than the width is kept whole behind its zeros. *)
Lemma pad_row_fits (W : nat) (s : list nat) :
  length s <= W ->
  pad_row (Z.of_nat W) s = Returned (repeat 0 (W - length s) ++ s).
Proof.
  intros Hle. unfold pad_row. rewrite Nat2Z.id.
  destruct s as [|a r] eqn:Es.
  - simpl. now rewrite Nat.sub_0_r, app_nil_r.
  - rewrite <- Es in *. assert (Hlen : 1 <= length s) by (subst s; simpl; lia).
    rewrite slice_from_last by lia.
    replace (length s - W) with 0 by lia. simpl skipn.
    rewrite slice_from_last by lia.
    rewrite length_skipn, !repeat_length.
    replace (W - (W - length s)) with (length s) by lia.
    rewrite Nat.eqb_refl, repeat_firstn.
    now replace (Nat.min (W - length s) W) with (W - length s) by lia.
Qed.

(** A longer sequence keeps its last [W] ids. *)
Lemma pad_row_long (W : nat) (s : list nat) :
  1 <= W -> W <= length s ->
  pad_row (Z.of_nat W) s = Returned (skipn (length s - W) s).
Proof.
  intros HW Hle. unfold pad_row. rewrite Nat2Z.id.
  destruct s as [|a r] eqn:Es; [simpl in Hle; lia|].
  rewrite <- Es in *.
  rewrite slice_from_last by lia.
  set (trunc := skipn (length s - W) s).
  assert (Ht : length trunc = W) by (unfold trunc; rewrite length_skipn; lia).
  rewrite slice_from_last by lia.
  rewrite length_skipn, !repeat_length, Ht, Nat.sub_diag, Nat.sub_0_r.
  rewrite Nat.eqb_refl, Nat.sub_diag. reflexivity.
Qed.

Lemma pad_row_width (W : nat) (s row : list nat) :
  1 <= W -> pad_row (Z.of_nat W) s = Returned row -> length row = W.
Proof.
  intros HW. destruct (Nat.le_gt_cases (length s) W) as [Hle|Hgt].
  - rewrite pad_row_fits by easy. intros [= <-].
    rewrite length_app, repeat_length. lia.
  - rewrite pad_row_long by lia. intros [= <-].
    rewrite length_skipn. lia.
Qed.

Lemma strip_zeros_padding (n : nat) (s : list nat) :
  hd 1 s <> 0 -> Spec.strip_zeros (repeat 0 n ++ s) = s.
Proof.
  intros Hs. induction n as [|n IH]; simpl; [|exact IH].
  destruct s as [|[|a] r]; simpl in *; congruence.
Qed.

End Padding.

(** ** Token lists and the width *)

Section Tokens.
Import Keras Notebook.

Lemma in_prefix {A} (l : list A) (k : nat) (x : A) :
  In x (firstn k l) -> In x l.
Proof.
  intros H. rewrite <- (firstn_skipn k l). apply in_or_app. now left.
Qed.

Lemma text_to_sequence_spec (tok : Tokenizer) (text : Py.str) :
  text_to_sequence tok text =
  flat_map (Spec.id_of tok) (text_to_word_sequence text).
Proof.
  unfold text_to_sequence.
  rewrite <- (app_nil_l (flat_map _ _)), <- fold_left_extend.
  apply fold_left_pointwise. intros vect w. unfold Spec.id_of.
  destruct (Dict.get (word_index tok) w); [reflexivity|].
  now rewrite app_nil_r.
Qed.

Lemma tokens_are_values (tok : Tokenizer) (text : Py.str) (i : nat) :
  In i (text_to_sequence tok text) -> In i (Dict.values (word_index tok)).
Proof.
  rewrite text_to_sequence_spec, in_flat_map.
  intros (w & _ & Hi). unfold Spec.id_of in Hi.
  destruct (Dict.get (word_index tok) w) as [j|] eqn:E; [|easy].
  destruct Hi as [<-|[]]. eapply get_some_value, E.
Qed.

Lemma tokens_in_range (corpus text : Py.str) (i : nat) :
  In i (text_to_sequence (tokenizer corpus) text) ->
  1 <= i <= length (word_index (tokenizer corpus)).
Proof.
  intros H. apply tokens_are_values in H.
  rewrite word_index_values in H. now apply seq_1_bounds.
Qed.

(** Words without an index leave no trace in the token list. *)
Lemma unknown_words_vanish (tok : Tokenizer) (text : Py.str) :
  Forall (fun w => Dict.get (word_index tok) w = None)
         (text_to_word_sequence text) ->
  text_to_sequence tok text = [].
Proof.
  rewrite text_to_sequence_spec.
  induction (text_to_word_sequence text) as [|w r IH]; intros H; simpl.
  - reflexivity.
  - inversion H as [|? ? Hw Hr]; subst. unfold Spec.id_of at 1. rewrite Hw.
    now apply IH.
Qed.

Lemma sequence_is_prefix (tok : Tokenizer) (text : Py.str) (s : list nat) :
  In s (input_sequences tok text) ->
  exists line k,
    In line (Py.split newline text)
    /\ 2 <= k <= length (text_to_sequence tok line)
    /\ s = firstn k (text_to_sequence tok line).
Proof.
  rewrite input_sequences_spec, in_flat_map.
  intros (line & Hline & Hs). apply prefixes_In in Hs as (k & Hk & ->).
  now exists line, k.
Qed.

Lemma sequence_length (tok : Tokenizer) (text : Py.str) (s : list nat) :
  In s (input_sequences tok text) -> 2 <= length s.
Proof.
  intros H. apply sequence_is_prefix in H as (line & k & _ & Hk & ->).
  rewrite firstn_length_le; lia.
Qed.

Lemma sequence_ids (corpus text : Py.str) (s : list nat) (i : nat) :
  In s (input_sequences (tokenizer corpus) text) -> In i s ->
  1 <= i <= length (word_index (tokenizer corpus)).
Proof.
  intros H Hi. apply sequence_is_prefix in H as (line & k & _ & _ & ->).
  apply (tokens_in_range corpus line). eapply in_prefix, Hi.
Qed.

Lemma fold_max_bounds (r : list nat) (a : nat) :
  let m := fold_left Nat.max r a in
  a <= m /\ (forall x, In x r -> x <= m) /\ In m (a :: r).
Proof.
  revert a. induction r as [|b r IH]; intros a; simpl.
  - repeat split; [lia|tauto|now left].
  - destruct (IH (Nat.max a b)) as (H1 & H2 & H3). repeat split.
    + lia.
    + intros x [<-|Hx]; [lia|auto].
    + destruct H3 as [H3|H3]; [|right; right; exact H3].
      destruct (Nat.max_spec a b) as [[_ E]|[_ E]].
      * right; left. rewrite <- H3. exact (eq_sym E).
      * left. rewrite <- H3. exact (eq_sym E).
Qed.

Lemma max_sequence_len_spec (seqs : list (list nat)) (W : nat) :
  max_sequence_len seqs = Returned W ->
  (forall s, In s seqs -> length s <= W)
  /\ exists s, In s seqs /\ length s = W.
Proof.
  unfold max_sequence_len, Py.max.
  destruct seqs as [|s0 r]; simpl; [discriminate|].
  intros [= <-].
  destruct (fold_max_bounds (map (@length nat) r) (length s0)) as (H1 & H2 & H3).
  split.
  - intros s [<-|Hs]; [exact H1|]. apply H2. now apply in_map.
  - destruct H3 as [H3|H3].
    + exists s0. split; [now left|easy].
    + apply in_map_iff in H3 as (s & Hs & Hin). exists s. split; [now right|easy].
Qed.

Lemma max_sequence_len_total (seqs : list (list nat)) :
  seqs <> [] -> exists W, max_sequence_len seqs = Returned W.
Proof.
  destruct seqs as [|s r]; [easy|]. intros _. eexists. reflexivity.
Qed.

(** The width of a corpus that has a width is at least two. *)
Lemma width_at_least_two (tok : Tokenizer) (text : Py.str) (W : nat) :
  max_sequence_len (input_sequences tok text) = Returned W -> 2 <= W.
Proof.
  intros H. apply max_sequence_len_spec in H as (_ & s & Hs & <-).
  eapply sequence_length, Hs.
Qed.

Lemma pad_sequences_fit (seqs : list (list nat)) (W : nat) :
  (forall s, In s seqs -> length s <= W) ->
  pad_sequences seqs (Z.of_nat W) =
  Returned (map (fun s => repeat 0 (W - length s) ++ s) seqs).
Proof.
  intros Hle. unfold pad_sequences.
  destruct (Z.ltb_spec (Z.of_nat W) 0); [lia|].
  apply mapM_total. intros s Hs. apply pad_row_fits. auto.
Qed.

End Tokens.

Section PaddingClaim.
Import Keras Notebook.

Lemma Forall2_map_right {A B} (R : A -> B -> Prop) (f : A -> B) (l : list A) :
  (forall a, In a l -> R a (f a)) -> Forall2 R l (map f l).
Proof.
  induction l as [|a r IH]; intros H; simpl; constructor.
  - apply H. now left.
  - apply IH. intros b Hb. apply H. now right.
Qed.

Lemma padded_positions (n : nat) (s : list nat) (k : nat) :
  ~ In 0 s -> k < n + length s ->
  (nth k (repeat 0 n ++ s) 1 = 0 <-> k < n).
Proof.
  intros Hs Hk. destruct (Nat.lt_ge_cases k n) as [Hlt|Hge].
  - rewrite app_nth1 by now rewrite repeat_length.
    rewrite nth_repeat_lt by easy. tauto.
  - rewrite app_nth2; rewrite repeat_length; [|easy].
    split; [|lia]. intros E. exfalso. apply Hs. rewrite <- E.
    apply nth_In. lia.
Qed.

Lemma no_zero_head (s : list nat) : ~ In 0 s -> hd 1 s <> 0.
Proof. destruct s as [|a r]; simpl; [easy|]. intros H E. apply H. now left. Qed.

(** C4. With [W] the maximum length over the expanded sequences, padding
    any sequence of length [L <= W] gives [W - L] zeros followed by the
    sequence unchanged; when the sequence holds no zero (as every sequence
    of vocabulary ids does), stripping the leading zeros gives the sequence
    back and the zeros of the row are exactly its first [W - L] positions.
    The padded matrix of the notebook is the expanded sequences padded this
    way, row by row. *)
Theorem padding_round_trip (corpus text : Py.str) (W : nat) :
  let seqs := input_sequences (tokenizer corpus) text in
  max_sequence_len seqs = Returned W ->
  (forall s, length s <= W ->
     let row := repeat 0 (W - length s) ++ s in
     pad_sequences [s] (Z.of_nat W) = Returned [row]
     /\ (~ In 0 s ->
         Spec.strip_zeros row = s
         /\ forall k, k < W -> (nth k row 1 = 0 <-> k < W - length s)))
  /\ exists padded,
       pad_sequences seqs (Z.of_nat W) = Returned padded
       /\ Forall2
            (fun s row =>
               length s <= W /\ ~ In 0 s
               /\ row = repeat 0 (W - length s) ++ s
               /\ Spec.strip_zeros row = s)
            seqs padded.
Proof.
  intros seqs HW. split.
  - intros s Hs row. split.
    + rewrite pad_sequences_fit; [reflexivity|].
      intros s' [<-|[]]. exact Hs.
    + intros Hz. split.
      * apply strip_zeros_padding. now apply no_zero_head.
      * intros k Hk. apply padded_positions; [easy|lia].
  - apply max_sequence_len_spec in HW as (Hle & _).
    eexists. split; [now apply pad_sequences_fit|].
    apply Forall2_map_right. intros s Hs.
    assert (Hz : ~ In 0 s).
    { intros H0. pose proof (sequence_ids corpus text s 0 Hs H0). lia. }
    repeat split; auto.
    apply strip_zeros_padding. now apply no_zero_head.
Qed.

(** The sample corpus has width 4. *)
Lemma padding_round_trip_sample :
  let seqs := input_sequences Sample.tokenizer Sample.corpus in
  max_sequence_len seqs = Returned 4
  /\ (forall s, length s <= 4 ->
        let row := repeat 0 (4 - length s) ++ s in
        pad_sequences [s] (Z.of_nat 4) = Returned [row]
        /\ (~ In 0 s ->
            Spec.strip_zeros row = s
            /\ forall k, k < 4 -> (nth k row 1 = 0 <-> k < 4 - length s)))
  /\ exists padded,
       pad_sequences seqs (Z.of_nat 4) = Returned padded
       /\ Forall2
            (fun s row =>
               length s <= 4 /\ ~ In 0 s
               /\ row = repeat 0 (4 - length s) ++ s
               /\ Spec.strip_zeros row = s)
            seqs padded.
Proof.
  cbv zeta. split; [vm_compute; reflexivity|].
  apply (@padding_round_trip Sample.corpus Sample.corpus 4).
  vm_compute. reflexivity.
Defined.

End PaddingClaim.

(** ** The predictor (cell 21) *)

Section Predictor.
Import Keras Notebook.

Lemma pad_one_row (W : nat) (s : list nat) :
  length s <= W ->
  pad_sequences [s] (Z.of_nat W) = Returned [repeat 0 (W - length s) ++ s].
Proof.
  intros Hs. rewrite pad_sequences_fit; [reflexivity|].
  intros s' [<-|[]]. exact Hs.
Qed.

(** A token list of [W] ids or more: the last [W - 1] are kept. *)
Lemma predictor_input_long (tok : Tokenizer) (text : Py.str) (W : nat) :
  2 <= W -> W <= length (text_to_sequence tok text) ->
  predictor_input tok text (Z.of_nat W) =
  Returned [skipn (length (text_to_sequence tok text) - (W - 1))
                  (text_to_sequence tok text)].
Proof.
  intros HW Hlen. unfold predictor_input. simpl hd.
  set (tl := text_to_sequence tok text) in *.
  destruct (Z.geb_spec (Z.of_nat (length tl)) (Z.of_nat W)) as [_|H]; [|lia].
  replace (Z.of_nat W - 1)%Z with (Z.of_nat (W - 1)) by lia.
  rewrite slice_from_last by lia.
  rewrite pad_one_row by (rewrite length_skipn; lia).
  rewrite length_skipn.
  replace (W - 1 - (length tl - (length tl - (W - 1)))) with 0 by lia.
  reflexivity.
Qed.

(** A shorter token list is kept whole and padded. *)
Lemma predictor_input_short (tok : Tokenizer) (text : Py.str) (W : nat) :
  2 <= W -> length (text_to_sequence tok text) < W ->
  predictor_input tok text (Z.of_nat W) =
  Returned [repeat 0 (W - 1 - length (text_to_sequence tok text))
              ++ text_to_sequence tok text].
Proof.
  intros HW Hlen. unfold predictor_input. simpl hd.
  set (tl := text_to_sequence tok text) in *.
  destruct (Z.geb_spec (Z.of_nat (length tl)) (Z.of_nat W)) as [H|_]; [lia|].
  replace (Z.of_nat W - 1)%Z with (Z.of_nat (W - 1)) by lia.
  apply pad_one_row. lia.
Qed.

Lemma predictor_input_row (tok : Tokenizer) (text : Py.str) (W : nat) :
  2 <= W ->
  exists row,
    predictor_input tok text (Z.of_nat W) = Returned [row]
    /\ length row = W - 1.
Proof.
  intros HW.
  destruct (Nat.le_gt_cases W (length (text_to_sequence tok text))) as [H|H].
  - eexists. split; [now apply predictor_input_long|].
    rewrite length_skipn. lia.
  - eexists. split; [now apply predictor_input_short|].
    rewrite length_app, repeat_length. lia.
Qed.

(** C2. With [W] the maximum training sequence length, a tokenized input
    of [W] ids or more is cut to exactly its last [W - 1] ids: the row
    handed to the network is the token list without its first
    [length - (W - 1)] ids. For [W = 14] and 20 ids the row is the last 13
    ids, the first 7 being dropped. *)
Theorem predictor_truncation (tok : Tokenizer) (corpus text : Py.str)
    (W : nat) :
  let token_list := hd [] (texts_to_sequences tok [text]) in
  let dropped := length token_list - (W - 1) in
  max_sequence_len (input_sequences tok corpus) = Returned W ->
  W <= length token_list ->
  predictor_input tok text (Z.of_nat W) = Returned [skipn dropped token_list]
  /\ length (skipn dropped token_list) = W - 1
  /\ token_list = firstn dropped token_list ++ skipn dropped token_list
  /\ (W = 14 -> length token_list = 20 ->
      predictor_input tok text 14 = Returned [skipn 7 token_list]
      /\ length (skipn 7 token_list) = 13).
Proof.
  cbv zeta. simpl hd. intros HW Hlen. apply width_at_least_two in HW.
  split; [now apply predictor_input_long|].
  split; [rewrite length_skipn; lia|].
  split; [now rewrite firstn_skipn|].
  intros -> H20. split.
  - change 14%Z with (Z.of_nat 14).
    rewrite (predictor_input_long tok text (W := 14)) by lia.
    now rewrite H20.
  - rewrite length_skipn. lia.
Qed.

End Predictor.

(** ** argmax and the reverse lookup *)

Section Argmax.
Import Keras Notebook.

Lemma argmax_scan_spec (l p : list Q) (bi : nat) (b : Q) :
  bi < length p ->
  nth bi p 0%Q = b ->
  (forall i, i < length p -> (nth i p 0 <= b)%Q) ->
  (forall i, i < bi -> (nth i p 0 < b)%Q) ->
  Spec.first_max (p ++ l) (Np.argmax_scan l (length p) bi b).
Proof.
  revert p bi b. induction l as [|v r IH]; intros p bi b Hbi Hb Hle Hlt.
  - simpl. rewrite app_nil_r. subst b. repeat split; auto.
  - simpl. replace (p ++ v :: r) with ((p ++ [v]) ++ r)
      by now rewrite <- app_assoc.
    replace (S (length p)) with (length (p ++ [v]))
      by (rewrite length_app; simpl; lia).
    destruct (Qle_bool v b) eqn:Ev.
    + apply Qle_bool_iff in Ev. apply IH.
      * rewrite length_app. lia.
      * now rewrite app_nth1.
      * intros i Hi. rewrite length_app in Hi. simpl in Hi.
        destruct (Nat.eq_dec i (length p)) as [->|Hne].
        -- now rewrite nth_middle.
        -- rewrite app_nth1 by lia. apply Hle. lia.
      * intros i Hi. rewrite app_nth1 by lia. now apply Hlt.
    + assert (Hv : (b < v)%Q).
      { apply Qnot_le_lt. intros H. apply Qle_bool_iff in H. congruence. }
      apply IH.
      * rewrite length_app. simpl. lia.
      * now rewrite nth_middle.
      * intros i Hi. rewrite length_app in Hi. simpl in Hi.
        destruct (Nat.eq_dec i (length p)) as [->|Hne].
        -- rewrite nth_middle. apply Qle_refl.
        -- rewrite app_nth1 by lia. apply Qlt_le_weak.
           eapply Qle_lt_trans; [apply Hle; lia|exact Hv].
      * intros i Hi. rewrite app_nth1 by lia.
        eapply Qle_lt_trans; [apply Hle; lia|exact Hv].
Qed.

(** [np.argmax] returns the first position of a maximum of a non-empty
    row. *)
Lemma argmax_first_max (row : list Q) :
  row <> [] ->
  exists j, Np.argmax row = Returned j /\ Spec.first_max row j.
Proof.
  destruct row as [|v r]; [easy|]. intros _. simpl.
  eexists. split; [reflexivity|].
  apply (argmax_scan_spec r [v] (bi := 0)); simpl; auto.
  - intros [|i] Hi; [apply Qle_refl|lia].
  - intros i Hi. lia.
Qed.

Lemma first_max_unique (row : list Q) (j j' : nat) :
  Spec.first_max row j -> Spec.first_max row j' -> j = j'.
Proof.
  intros (Hj & Hle & Hlt) (Hj' & Hle' & Hlt').
  destruct (Nat.lt_trichotomy j j') as [H|[H|H]]; [|easy|].
  - exfalso. apply (Qlt_not_le _ _ (Hlt' j H)). now apply Hle.
  - exfalso. apply (Qlt_not_le _ _ (Hlt j' H)). now apply Hle'.
Qed.

(** The closing loop returns the first word carrying the predicted id. *)
Lemma first_match_find (items : Dict.t nat) (j : nat) :
  first_match items [j] =
  Returned (option_map fst (find (fun kv => snd kv =? j) items)).
Proof.
  induction items as [|[k i] r IH]; simpl; [reflexivity|].
  destruct (i =? j); [reflexivity|exact IH].
Qed.

Lemma first_match_cases (items : Dict.t nat) (j : nat) :
  NoDup (Dict.keys items) ->
  (exists w, first_match items [j] = Returned (Some w)
             /\ Dict.get items w = Some j)
  \/ (first_match items [j] = Returned None
      /\ forall w, Dict.get items w <> Some j).
Proof.
  intros Hnd. rewrite first_match_find.
  destruct (find (fun kv => snd kv =? j) items) as [[w i]|] eqn:E; simpl.
  - left. exists w. split; [reflexivity|].
    apply find_some in E as [Hin Hi]. simpl in Hi.
    apply Nat.eqb_eq in Hi. subst i. now apply in_get_some.
  - right. split; [reflexivity|]. intros w Hw.
    apply get_some_in in Hw. apply (find_none _ _ E) in Hw.
    simpl in Hw. now rewrite Nat.eqb_refl in Hw.
Qed.

End Argmax.

Section PredictorClaims.
Import Keras Notebook.

Lemma predict_next_word_run (model : list nat -> list Q) (tok : Tokenizer)
    (text : Py.str) (W : Z) (row : list nat) (j : nat) :
  predictor_input tok text W = Returned [row] ->
  Np.argmax (model row) = Returned j ->
  predict_next_word model tok text W = first_match (word_index tok) [j].
Proof.
  intros Hrow Hj. unfold predict_next_word. rewrite Hrow.
  cbn [bind map mapM Np.argmax_axis1]. rewrite Hj. reflexivity.
Qed.

(** The sample of C2: fourteen-word corpus, twenty-word input. *)
Lemma predictor_truncation_sample :
  let tok := Sample.letter_tokenizer in
  let token_list := hd [] (texts_to_sequences tok [Sample.twenty_words]) in
  max_sequence_len (input_sequences tok Sample.letters) = Returned 14
  /\ 14 <= length token_list
  /\ predictor_input tok Sample.twenty_words (Z.of_nat 14) =
     Returned [skipn (length token_list - (14 - 1)) token_list]
  /\ length (skipn (length token_list - (14 - 1)) token_list) = 14 - 1
  /\ token_list =
     firstn (length token_list - (14 - 1)) token_list
       ++ skipn (length token_list - (14 - 1)) token_list
  /\ (14 = 14 -> length token_list = 20 ->
      predictor_input tok Sample.twenty_words 14 =
      Returned [skipn 7 token_list]
      /\ length (skipn 7 token_list) = 13).
Proof.
  cbv zeta.
  split; [vm_compute; reflexivity|].
  split; [vm_compute; lia|].
  apply (@predictor_truncation Sample.letter_tokenizer Sample.letters
           Sample.twenty_words 14).
  - vm_compute. reflexivity.
  - vm_compute. lia.
Defined.

(** C9. Whatever the input text, the network is handed exactly one row of
    [W - 1] entries, [W] being the training width: a token list of exactly
    [W] ids already loses its first id, a longer one keeps its last
    [W - 1], a shorter one is filled with leading zeros; [predict_next_word]
    continues with the network's scores for that row. *)
Theorem predictor_input_width (model : list nat -> list Q) (tok : Tokenizer)
    (corpus text : Py.str) (W : nat) :
  let token_list := hd [] (texts_to_sequences tok [text]) in
  max_sequence_len (input_sequences tok corpus) = Returned W ->
  exists row,
    predictor_input tok text (Z.of_nat W) = Returned [row]
    /\ length row = W - 1
    /\ (length token_list = W -> row = skipn 1 token_list)
    /\ (W <= length token_list ->
        row = skipn (length token_list - (W - 1)) token_list)
    /\ (length token_list < W ->
        row = repeat 0 (W - 1 - length token_list) ++ token_list)
    /\ predict_next_word model tok text (Z.of_nat W) =
       (predicted_word_index <- Np.argmax_axis1 [model row] ;;
        first_match (word_index tok) predicted_word_index).
Proof.
  cbv zeta. simpl hd. intros HW. apply width_at_least_two in HW.
  destruct (predictor_input_row tok text HW) as (row & Hrow & Hlen).
  exists row. split; [exact Hrow|]. split; [exact Hlen|].
  split; [|split; [|split]].
  - intros E. rewrite predictor_input_long in Hrow by lia.
    injection Hrow as <-. f_equal. lia.
  - intros Hge. rewrite predictor_input_long in Hrow by lia.
    now injection Hrow as <-.
  - intros Hlt. rewrite predictor_input_short in Hrow by lia.
    now injection Hrow as <-.
  - unfold predict_next_word. now rewrite Hrow.
Qed.

Lemma predictor_input_width_sample :
  let tok := Sample.tokenizer in
  let text := Py.lit "long live the king" in
  let token_list := hd [] (texts_to_sequences tok [text]) in
  max_sequence_len (input_sequences tok Sample.corpus) = Returned 4
  /\ exists row,
       predictor_input tok text (Z.of_nat 4) = Returned [row]
       /\ length row = 4 - 1
       /\ (length token_list = 4 -> row = skipn 1 token_list)
       /\ (4 <= length token_list ->
           row = skipn (length token_list - (4 - 1)) token_list)
       /\ (length token_list < 4 ->
           row = repeat 0 (4 - 1 - length token_list) ++ token_list)
       /\ predict_next_word Sample.model tok text (Z.of_nat 4) =
          (predicted_word_index <- Np.argmax_axis1 [Sample.model row] ;;
           first_match (word_index tok) predicted_word_index).
Proof.
  cbv zeta. split; [vm_compute; reflexivity|].
  apply (@predictor_input_width Sample.model Sample.tokenizer Sample.corpus
           (Py.lit "long live the king") 4).
  vm_compute. reflexivity.
Defined.

End PredictorClaims.

Section LookupClaims.
Import Keras Notebook.

Lemma fitted_keys_nodup (corpus : Py.str) :
  NoDup (Dict.keys (word_index (tokenizer corpus))).
Proof. rewrite word_index_keys. apply sorted_voc_nodup. Qed.

Lemma fitted_ids_unique (corpus : Py.str) (w1 w2 : Py.str) (i : nat) :
  Dict.get (word_index (tokenizer corpus)) w1 = Some i ->
  Dict.get (word_index (tokenizer corpus)) w2 = Some i -> w1 = w2.
Proof.
  apply values_injective. rewrite word_index_values. apply seq_NoDup.
Qed.

Lemma fitted_no_zero (corpus : Py.str) (w : Py.str) :
  Dict.get (word_index (tokenizer corpus)) w <> Some 0.
Proof.
  intros H. apply get_some_value in H. rewrite word_index_values in H.
  apply seq_1_bounds in H. lia.
Qed.

(** C3. The predictor takes the first position [j] of a maximum of the
    network's scores for its input row and looks [j] up in the vocabulary:
    it returns the one word whose id is [j], or [None] when no word has
    that id, which is the case for [j = 0]; it does not raise. *)
Theorem predictor_reverse_lookup (model : list nat -> list Q)
    (corpus text : Py.str) (W : nat) :
  let tok := tokenizer corpus in
  let wi := word_index tok in
  let result := predict_next_word model tok text (Z.of_nat W) in
  2 <= W ->
  (forall row, model row <> []) ->
  exists row j,
    predictor_input tok text (Z.of_nat W) = Returned [row]
    /\ Np.argmax (model row) = Returned j
    /\ Spec.first_max (model row) j
    /\ ((exists w, result = Returned (Some w)
                   /\ Dict.get wi w = Some j
                   /\ forall w', Dict.get wi w' = Some j -> w' = w)
        \/ (result = Returned None /\ forall w, Dict.get wi w <> Some j))
    /\ (j = 0 -> result = Returned None).
Proof.
  cbv zeta. intros HW Hmodel.
  destruct (predictor_input_row (tokenizer corpus) text HW)
    as (row & Hrow & _).
  destruct (argmax_first_max (Hmodel row)) as (j & Hj & Hmax).
  exists row, j. rewrite (predict_next_word_run _ _ _ _ Hrow Hj).
  destruct (@first_match_cases _ j (fitted_keys_nodup corpus))
    as [(w & Hw & Hget)|(Hnone & Hno)].
  - split; [exact Hrow|]. split; [exact Hj|]. split; [exact Hmax|]. split.
    + left. exists w. split; [exact Hw|]. split; [exact Hget|].
      intros w' Hw'. exact (fitted_ids_unique corpus _ _ Hw' Hget).
    + intros ->. now apply fitted_no_zero in Hget.
  - split; [exact Hrow|]. split; [exact Hj|]. split; [exact Hmax|]. split.
    + right. now split.
    + intros _. exact Hnone.
Qed.

Lemma predictor_reverse_lookup_sample :
  let tok := tokenizer Sample.corpus in
  let wi := word_index tok in
  let text := Py.lit "long live the" in
  let result := predict_next_word Sample.model tok text (Z.of_nat 4) in
  2 <= 4
  /\ (forall row, Sample.model row <> [])
  /\ exists row j,
       predictor_input tok text (Z.of_nat 4) = Returned [row]
       /\ Np.argmax (Sample.model row) = Returned j
       /\ Spec.first_max (Sample.model row) j
       /\ ((exists w, result = Returned (Some w)
                      /\ Dict.get wi w = Some j
                      /\ forall w', Dict.get wi w' = Some j -> w' = w)
           \/ (result = Returned None
               /\ forall w, Dict.get wi w <> Some j))
       /\ (j = 0 -> result = Returned None).
Proof.
  cbv zeta. split; [lia|]. split; [discriminate|].
  apply (@predictor_reverse_lookup Sample.model Sample.corpus
           (Py.lit "long live the") 4); [lia|discriminate].
Defined.

(** The claim C7 fails: on the empty text, and on a text of unknown words
    only, a network that favours class 1 makes the predictor return the
    word of id 1. *)
Lemma empty_input_returns_a_word :
  let tok := Sample.tokenizer in
  text_to_word_sequence (Py.lit "") = []
  /\ predict_next_word Sample.model tok (Py.lit "") 4
     = Returned (Some (Py.lit "the"))
  /\ Forall (fun w => Dict.get (word_index tok) w = None)
            (text_to_word_sequence (Py.lit "zebra crossing"))
  /\ predict_next_word Sample.model tok (Py.lit "zebra crossing") 4
     = Returned (Some (Py.lit "the"))
  /\ predict_next_word Sample.model tok (Py.lit "") 4 <> Returned None.
Proof.
  cbv zeta. repeat split; try (vm_compute; reflexivity).
  - vm_compute. repeat constructor.
  - vm_compute. discriminate.
Qed.

(** C7, amended. On a text that is empty or holds only words outside the
    vocabulary the predictor does not raise: it hands the network the row
    of [W - 1] zeros and returns the word whose id is the first maximum of
    the network's scores for that row, or [None] when no word has that
    id. *)
Theorem predictor_on_unknown_words (model : list nat -> list Q)
    (corpus text : Py.str) (W : nat) :
  let tok := tokenizer corpus in
  let wi := word_index tok in
  let result := predict_next_word model tok text (Z.of_nat W) in
  2 <= W ->
  (forall row, model row <> []) ->
  Forall (fun w => Dict.get wi w = None) (text_to_word_sequence text) ->
  predictor_input tok text (Z.of_nat W) = Returned [repeat 0 (W - 1)]
  /\ exists j,
       Np.argmax (model (repeat 0 (W - 1))) = Returned j
       /\ Spec.first_max (model (repeat 0 (W - 1))) j
       /\ ((exists w, result = Returned (Some w) /\ Dict.get wi w = Some j)
           \/ (result = Returned None
               /\ forall w, Dict.get wi w <> Some j)).
Proof.
  cbv zeta. intros HW Hmodel Hunk.
  apply unknown_words_vanish in Hunk.
  assert (Hrow : predictor_input (tokenizer corpus) text (Z.of_nat W)
                 = Returned [repeat 0 (W - 1)]).
  { rewrite predictor_input_short by (try rewrite Hunk; simpl; lia).
    rewrite Hunk. simpl length. now rewrite Nat.sub_0_r, app_nil_r. }
  split; [exact Hrow|].
  destruct (argmax_first_max (Hmodel (repeat 0 (W - 1)))) as (j & Hj & Hmax).
  exists j. rewrite (predict_next_word_run _ _ _ _ Hrow Hj).
  split; [exact Hj|]. split; [exact Hmax|].
  destruct (@first_match_cases _ j (fitted_keys_nodup corpus))
    as [(w & Hw & Hget)|(Hnone & Hno)].
  - left. now exists w.
  - right. now split.
Qed.

Lemma predictor_on_unknown_words_sample :
  let tok := tokenizer Sample.corpus in
  let wi := word_index tok in
  let text := Py.lit "zebra crossing" in
  let result := predict_next_word Sample.model tok text (Z.of_nat 4) in
  2 <= 4
  /\ (forall row, Sample.model row <> [])
  /\ Forall (fun w => Dict.get wi w = None) (text_to_word_sequence text)
  /\ predictor_input tok text (Z.of_nat 4) = Returned [repeat 0 (4 - 1)]
  /\ exists j,
       Np.argmax (Sample.model (repeat 0 (4 - 1))) = Returned j
       /\ Spec.first_max (Sample.model (repeat 0 (4 - 1))) j
       /\ ((exists w, result = Returned (Some w) /\ Dict.get wi w = Some j)
           \/ (result = Returned None
               /\ forall w, Dict.get wi w <> Some j)).
Proof.
  cbv zeta. split; [lia|]. split; [discriminate|].
  assert (H : Forall
                (fun w => Dict.get (word_index (tokenizer Sample.corpus)) w
                          = None)
                (text_to_word_sequence (Py.lit "zebra crossing")))
    by (vm_compute; repeat constructor).
  split; [exact H|].
  apply (@predictor_on_unknown_words Sample.model Sample.corpus
           (Py.lit "zebra crossing") 4); [lia|discriminate|exact H].
Defined.

End LookupClaims.

(** ** Predictors and labels (cell 13) *)

Section Labels.
Import Keras Notebook.

Lemma last_col_last (row : list nat) :
  row <> [] -> last_col row = Returned (last row 0).
Proof.
  intros Hne. destruct (exists_last Hne) as (l & a & ->).
  unfold last_col. rewrite rev_app_distr. simpl. now rewrite last_last.
Qed.

Lemma last_padded (n : nat) (s : list nat) :
  s <> [] -> last (repeat 0 n ++ s) 0 = last s 0.
Proof.
  intros Hne. destruct (exists_last Hne) as (l & a & ->).
  now rewrite app_assoc, !last_last.
Qed.

Lemma upd_length (l : list nat) (i v : nat) :
  length (Np.upd l i v) = length l.
Proof.
  revert i. induction l as [|a r IH]; intros [|i]; simpl; auto.
Qed.

Lemma upd_nth (l : list nat) (i v j : nat) :
  i < length l ->
  nth j (Np.upd l i v) 0 = if j =? i then v else nth j l 0.
Proof.
  revert i j. induction l as [|a r IH]; intros [|i] [|j] Hi;
    simpl in *; try lia; try reflexivity.
  apply IH. lia.
Qed.

(** The row written by [to_categorical] for a label in range. *)
Lemma one_hot_row (n c : nat) :
  c < n -> Spec.one_hot_at n c (Np.upd (repeat 0 n) c 1).
Proof.
  intros Hc. split; [|split; [exact Hc|]].
  - now rewrite upd_length, repeat_length.
  - intros j Hj. rewrite upd_nth by now rewrite repeat_length.
    destruct (j =? c); [reflexivity|]. now apply nth_repeat_lt.
Qed.

Lemma to_categorical_in_range (y : list nat) (n : nat) :
  1 <= n ->
  (forall c, In c y -> c < n) ->
  to_categorical y n =
  Returned (map (fun c => Np.upd (repeat 0 n) c 1) y).
Proof.
  intros Hn Hy. unfold to_categorical.
  destruct (Nat.eqb_spec n 0) as [E|_]; [lia|].
  - cbn [bind]. apply mapM_total. intros c Hc.
    destruct (Nat.ltb_spec c n) as [_|H]; [reflexivity|].
    specialize (Hy c Hc). lia.
Qed.

(** What cells 7 to 13 compute on a corpus that yields a sequence. *)
Lemma prepare_runs (text : Py.str) (W : nat) :
  let tok := tokenizer text in
  let seqs := input_sequences tok text in
  let padded := map (fun s => repeat 0 (W - length s) ++ s) seqs in
  let labels := map (fun s => last s 0) seqs in
  max_sequence_len seqs = Returned W ->
  prepare text =
  Returned {| p_tokenizer := tok;
              p_total_words := length (word_index tok) + 1;
              p_max_sequence_len := W;
              p_input_sequences := padded;
              p_X := map (fun row => firstn (W - 1) row) padded;
              p_labels := labels;
              p_y := map (fun c =>
                            Np.upd (repeat 0 (length (word_index tok) + 1)) c 1)
                         labels |}.
Proof.
  intros tok seqs padded labels HW. unfold prepare.
  fold tok. fold seqs. rewrite HW. cbn [bind].
  pose proof (max_sequence_len_spec _ HW) as (Hle & _).
  assert (Hne : forall s, In s seqs -> s <> []).
  { intros s Hs ->. apply sequence_length in Hs. simpl in Hs. lia. }
  rewrite pad_sequences_fit by exact Hle. fold padded. cbn [bind].
  assert (Hrow : forall row, In row padded -> length row = W /\ row <> []).
  { intros row Hrow. apply in_map_iff in Hrow as (s & <- & Hs).
    rewrite length_app, repeat_length. specialize (Hle s Hs).
    split; [lia|]. intros E. apply app_eq_nil in E as [_ E].
    now apply (Hne s). }
  rewrite (mapM_total last_col (fun row => last row 0))
    by (intros row Hr; apply last_col_last, Hrow, Hr).
  cbn [bind].
  assert (Hlab : map (fun row => last row 0) padded = labels).
  { unfold padded, labels. rewrite map_map. apply map_ext_in.
    intros s Hs. apply last_padded. now apply Hne. }
  rewrite Hlab. unfold total_words.
  rewrite to_categorical_in_range.
  - cbn [bind]. do 2 f_equal. apply map_ext_in. intros row Hr.
    rewrite slice_to_minus1. now destruct (Hrow row Hr) as [-> _].
  - lia.
  - intros c Hc. apply in_map_iff in Hc as (s & <- & Hs).
    assert (Hin : In (last s 0) s).
    { destruct (exists_last (Hne s Hs)) as (l & a & ->).
      rewrite last_last. apply in_or_app. right. now left. }
    pose proof (sequence_ids text text s (last s 0) Hs Hin) as Hid.
    unfold tok. lia.
Qed.

End Labels.

Section LabelClaims.
Import Keras Notebook.

Lemma split_last (l : list nat) :
  l <> [] -> l = firstn (length l - 1) l ++ [last l 0].
Proof.
  intros Hne. destruct (exists_last Hne) as (l' & a & ->).
  rewrite last_last, length_app. simpl.
  replace (length l' + 1 - 1) with (length l' + 0) by lia.
  now rewrite firstn_app_2, app_nil_r.
Qed.

Lemma last_is_nth (l : list nat) :
  last l 0 = nth (length l - 1) l 0.
Proof.
  destruct l as [|a r] using rev_ind; [reflexivity|].
  rewrite last_last, length_app. simpl.
  replace (length r + 1 - 1) with (length r) by lia.
  now rewrite nth_middle.
Qed.

(** Row [k] of the prepared data, from sequence [k]. *)
Lemma prepared_row (text : Py.str) (W k : nat) (s : list nat) :
  let tok := tokenizer text in
  let n := length (word_index tok) in
  max_sequence_len (input_sequences tok text) = Returned W ->
  nth_error (input_sequences tok text) k = Some s ->
  exists p,
    prepare text = Returned p
    /\ p_total_words p = n + 1
    /\ length (p_input_sequences p) = length (input_sequences tok text)
    /\ 2 <= length s <= W
    /\ 1 <= last s 0 <= n
    /\ nth_error (p_input_sequences p) k
       = Some (repeat 0 (W - length s) ++ s)
    /\ nth_error (p_X p) k
       = Some (firstn (W - 1) (repeat 0 (W - length s) ++ s))
    /\ nth_error (p_labels p) k = Some (last s 0)
    /\ nth_error (p_y p) k = Some (Np.upd (repeat 0 (n + 1)) (last s 0) 1).
Proof.
  intros tok n HW Hk.
  rewrite (@prepare_runs text W HW). eexists. split; [reflexivity|].
  cbn [p_total_words p_input_sequences p_X p_labels p_y].
  fold tok. fold n.
  pose proof (max_sequence_len_spec _ HW) as (Hle & _).
  pose proof (nth_error_In _ _ Hk) as Hs.
  pose proof (sequence_length _ _ _ Hs) as H2.
  assert (Hin : In (last s 0) s).
  { destruct s as [|a r] using rev_ind; [simpl in H2; lia|].
    rewrite last_last. apply in_or_app. right. now left. }
  pose proof (sequence_ids text text s (last s 0) Hs Hin) as Hid.
  fold tok in Hid. fold n in Hid.
  split; [reflexivity|]. split; [apply length_map|].
  split; [split; [exact H2|now apply Hle]|]. split; [exact Hid|].
  rewrite !nth_error_map, Hk. simpl. repeat split.
Qed.

(** C5. Once the corpus yields a sequence, cells 7 to 13 succeed, and for
    every padded row (of width [W]) the predictor input is its first
    [W - 1] columns, the label its last column, which is the final id of
    the sequence the row was padded from, and the encoded label is a row of
    [total_words = |vocabulary| + 1] entries with a one at the label and
    zeros elsewhere. *)
Theorem predictors_and_labels (text : Py.str) (W : nat) :
  let tok := tokenizer text in
  let seqs := input_sequences tok text in
  max_sequence_len seqs = Returned W ->
  exists p,
    prepare text = Returned p
    /\ p_total_words p = length (word_index tok) + 1
    /\ length (p_input_sequences p) = length seqs
    /\ forall k s, nth_error seqs k = Some s ->
         exists row label onehot,
           nth_error (p_input_sequences p) k = Some row
           /\ length row = W
           /\ nth_error (p_X p) k = Some (firstn (W - 1) row)
           /\ nth_error (p_labels p) k = Some label
           /\ label = nth (W - 1) row 0
           /\ row = firstn (W - 1) row ++ [label]
           /\ label = last s 0
           /\ nth_error (p_y p) k = Some onehot
           /\ Spec.one_hot_at (p_total_words p) label onehot.
Proof.
  intros tok seqs HW.
  rewrite (@prepare_runs text W HW). eexists. split; [reflexivity|].
  cbn [p_total_words p_input_sequences p_X p_labels p_y].
  split; [reflexivity|]. split; [apply length_map|].
  intros k s Hk.
  destruct (@prepared_row text W k s HW Hk)
    as (p & Hp & _ & _ & Hlen & Hid & Hrow & HX & Hl & Hy).
  rewrite (@prepare_runs text W HW) in Hp. injection Hp as <-.
  cbn [p_total_words p_input_sequences p_X p_labels p_y] in *.
  set (row := repeat 0 (W - length s) ++ s) in *.
  assert (HlenR : length row = W)
    by (unfold row; rewrite length_app, repeat_length; lia).
  assert (Hlast : last row 0 = last s 0).
  { apply last_padded. intros ->. simpl in Hlen. lia. }
  exists row, (last s 0), (Np.upd (repeat 0 (length (word_index tok) + 1))
                                  (last s 0) 1).
  split; [exact Hrow|]. split; [exact HlenR|]. split; [exact HX|].
  split; [exact Hl|].
  split; [now rewrite <- Hlast, last_is_nth, HlenR|].
  split.
  { rewrite <- Hlast, <- HlenR. apply split_last.
    intros E. rewrite E in HlenR. simpl in HlenR. lia. }
  split; [reflexivity|]. split; [exact Hy|].
  apply one_hot_row. fold tok in Hid. lia.
Qed.

Lemma predictors_and_labels_sample :
  let text := Sample.corpus in
  let tok := tokenizer text in
  let seqs := input_sequences tok text in
  max_sequence_len seqs = Returned 4
  /\ exists p,
       prepare text = Returned p
       /\ p_total_words p = length (word_index tok) + 1
       /\ length (p_input_sequences p) = length seqs
       /\ forall k s, nth_error seqs k = Some s ->
            exists row label onehot,
              nth_error (p_input_sequences p) k = Some row
              /\ length row = 4
              /\ nth_error (p_X p) k = Some (firstn (4 - 1) row)
              /\ nth_error (p_labels p) k = Some label
              /\ label = nth (4 - 1) row 0
              /\ row = firstn (4 - 1) row ++ [label]
              /\ label = last s 0
              /\ nth_error (p_y p) k = Some onehot
              /\ Spec.one_hot_at (p_total_words p) label onehot.
Proof.
  cbv zeta. split; [vm_compute; reflexivity|].
  apply (@predictors_and_labels Sample.corpus 4). vm_compute. reflexivity.
Defined.

End LabelClaims.

Section SentinelClaim.
Import Keras Notebook.

Lemma fitted_id_has_word (corpus : Py.str) (i : nat) :
  1 <= i <= length (word_index (tokenizer corpus)) ->
  exists w, Dict.get (word_index (tokenizer corpus)) w = Some i.
Proof.
  intros Hi. apply value_has_key; [apply fitted_keys_nodup|].
  rewrite word_index_values. now apply seq_1_bounds.
Qed.

(** C10. Every training label is a vocabulary id and never the padding
    value: the last id of each expanded sequence is the id of a word, hence
    positive; it is the last column of the sequence's padded row and the
    label of that row, and the encoded label has its one at that id and a
    zero at class 0. *)
Theorem labels_never_padding (text : Py.str) (W : nat) :
  let tok := tokenizer text in
  let seqs := input_sequences tok text in
  max_sequence_len seqs = Returned W ->
  exists p,
    prepare text = Returned p
    /\ forall k s, nth_error seqs k = Some s ->
         (exists w, Dict.get (word_index tok) w = Some (last s 0))
         /\ 1 <= last s 0
         /\ exists row label onehot,
              nth_error (p_input_sequences p) k = Some row
              /\ nth_error (p_labels p) k = Some label
              /\ nth_error (p_y p) k = Some onehot
              /\ label = last s 0
              /\ nth (W - 1) row 0 = label
              /\ label <> 0
              /\ nth label onehot 0 = 1
              /\ nth 0 onehot 0 = 0.
Proof.
  intros tok seqs HW.
  rewrite (@prepare_runs text W HW). eexists. split; [reflexivity|].
  intros k s Hk.
  destruct (@prepared_row text W k s HW Hk)
    as (p & Hp & _ & _ & Hlen & Hid & Hrow & _ & Hl & Hy).
  rewrite (@prepare_runs text W HW) in Hp. injection Hp as <-.
  cbn [p_input_sequences p_labels p_y] in *. fold tok in Hid.
  split; [now apply fitted_id_has_word|]. split; [lia|].
  set (n := length (word_index tok)) in *.
  set (row := repeat 0 (W - length s) ++ s) in *.
  exists row, (last s 0), (Np.upd (repeat 0 (n + 1)) (last s 0) 1).
  split; [exact Hrow|]. split; [exact Hl|]. split; [exact Hy|].
  split; [reflexivity|].
  assert (HlenR : length row = W)
    by (unfold row; rewrite length_app, repeat_length; lia).
  split.
  { rewrite <- HlenR, <- last_is_nth. apply last_padded.
    intros ->. simpl in Hlen. lia. }
  split; [lia|].
  rewrite !upd_nth by (rewrite repeat_length; lia).
  rewrite Nat.eqb_refl. split; [reflexivity|].
  destruct (Nat.eqb_spec 0 (last s 0)) as [E|_]; [lia|].
  apply nth_repeat_lt. lia.
Qed.

Lemma labels_never_padding_sample :
  let text := Sample.corpus in
  let tok := tokenizer text in
  let seqs := input_sequences tok text in
  max_sequence_len seqs = Returned 4
  /\ exists p,
       prepare text = Returned p
       /\ forall k s, nth_error seqs k = Some s ->
            (exists w, Dict.get (word_index tok) w = Some (last s 0))
            /\ 1 <= last s 0
            /\ exists row label onehot,
                 nth_error (p_input_sequences p) k = Some row
                 /\ nth_error (p_labels p) k = Some label
                 /\ nth_error (p_y p) k = Some onehot
                 /\ label = last s 0
                 /\ nth (4 - 1) row 0 = label
                 /\ label <> 0
                 /\ nth label onehot 0 = 1
                 /\ nth 0 onehot 0 = 0.
Proof.
  cbv zeta. split; [vm_compute; reflexivity|].
  apply (@labels_never_padding Sample.corpus 4). vm_compute. reflexivity.
Defined.

End SentinelClaim.

(** ** The size of the test set *)

Section TestSize.
Local Open Scope Z_scope.

(** Above [2^53] the significand drops [shift >= 1] bits. *)
Lemma binade (p : Z) :
  2 ^ 53 <= p ->
  let shift := Z.log2 p - 52 in
  1 <= shift /\ 2 ^ 52 * 2 ^ shift <= p < 2 ^ 53 * 2 ^ shift.
Proof.
  intros Hp shift.
  assert (H0 : 0 < p) by (assert (0 < 2 ^ 53) by reflexivity; lia).
  assert (H53 : 53 <= Z.log2 p) by now apply Z.log2_le_pow2.
  pose proof (Z.log2_spec p H0) as [Hlo Hhi].
  split; [unfold shift; lia|].
  replace (Z.log2 p) with (52 + shift) in Hlo by (unfold shift; lia).
  replace (Z.succ (Z.log2 p)) with (53 + shift) in Hhi by (unfold shift; lia).
  rewrite Z.pow_add_r in Hlo, Hhi by (unfold shift; lia).
  lia.
Qed.

(** Rounding moves a value by at most half a unit in the last place. *)
Lemma round_binary64_near (p : Z) :
  2 ^ 53 <= p ->
  exists h, 0 < h /\ 2 ^ 53 * h <= p
            /\ p - h <= Sk.round_binary64 p <= p + h.
Proof.
  intros Hp. destruct (binade Hp) as (Hs & Hlo & Hhi).
  unfold Sk.round_binary64.
  set (shift := Z.log2 p - 52) in *.
  destruct (Z.leb_spec shift 0) as [H|_]; [lia|].
  set (h := 2 ^ (shift - 1)).
  assert (Hh : 0 < h) by (apply Z.pow_pos_nonneg; lia).
  assert (Es : 2 ^ shift = 2 * h).
  { unfold h. rewrite <- Z.pow_succ_r by lia. f_equal. lia. }
  rewrite Es in *.
  exists h. split; [exact Hh|]. split; [lia|].
  pose proof (Z.div_mod p (2 * h) ltac:(lia)) as Hdm.
  pose proof (Z.mod_pos_bound p (2 * h) ltac:(lia)) as Hm.
  set (q := p / (2 * h)) in *. set (r := p mod (2 * h)) in *.
  destruct ((h <? r) || (r =? h) && Z.odd q) eqn:Hc.
  - assert (h <= r).
    { apply orb_true_iff in Hc as [Hc|Hc].
      - apply Z.ltb_lt in Hc. lia.
      - apply andb_true_iff in Hc as [Hc _]. apply Z.eqb_eq in Hc. lia. }
    lia.
  - apply orb_false_iff in Hc as [Hc _]. apply Z.ltb_ge in Hc. lia.
Qed.

(** A value whose dropped bits are below half a unit is rounded down. *)
Lemma round_binary64_down (p A a : Z) :
  2 ^ 53 <= p ->
  p = A * 2 ^ (Z.log2 p - 52) + a ->
  0 <= a -> 2 * a < 2 ^ (Z.log2 p - 52) ->
  Sk.round_binary64 p = A * 2 ^ (Z.log2 p - 52).
Proof.
  intros Hp HA Ha0 Ha. destruct (binade Hp) as (Hs & _ & _).
  unfold Sk.round_binary64.
  set (shift := Z.log2 p - 52) in *.
  destruct (Z.leb_spec shift 0) as [H|_]; [lia|].
  set (h := 2 ^ (shift - 1)).
  assert (Hh : 0 < h) by (apply Z.pow_pos_nonneg; lia).
  assert (Es : 2 ^ shift = 2 * h).
  { unfold h. rewrite <- Z.pow_succ_r by lia. f_equal. lia. }
  rewrite Es in *.
  assert (Hq : p / (2 * h) = A) by (apply Z.diveq; lia).
  assert (Hr : p mod (2 * h) = a).
  { rewrite Z.mod_eq by lia. rewrite Hq. lia. }
  rewrite Hq, Hr.
  destruct (Z.ltb_spec h a) as [H|_]; [lia|].
  destruct (Z.eqb_spec a h) as [H|_]; [lia|].
  reflexivity.
Qed.


Lemma ceil54_unique (v c : Z) :
  (c - 1) * 2 ^ 54 < v <= c * 2 ^ 54 -> Sk.ceil54 v = c.
Proof.
  intros H. unfold Sk.ceil54. apply Z.diveq.
  assert (0 < 2 ^ 54) by reflexivity. lia.
Qed.

Lemma five_test_size : 5 * Sk.test_size_m = 2 ^ 54 + 1.
Proof. reflexivity. Qed.

(** The float product [0.2 * n] rounds so that its ceiling is the exact
    ceiling of [n / 5]. *)
Lemma ceil_of_fifth (n a r : Z) :
  n = 5 * a + r -> 0 <= a -> 0 <= r < 5 -> n < 2 ^ 50 ->
  Sk.ceil54 (Sk.round_binary64 (Sk.test_size_m * n)) =
  a + (if r =? 0 then 0 else 1).
Proof.
  intros Hn Ha Hr Hb.
  pose proof five_test_size as H5.
  set (m := Sk.test_size_m) in *.
  assert (Hm : m = 3602879701896397) by reflexivity.
  assert (P54 : 2 ^ 54 = 18014398509481984) by reflexivity.
  assert (P53 : 2 ^ 53 = 9007199254740992) by reflexivity.
  assert (P52 : 2 ^ 52 = 4503599627370496) by reflexivity.
  assert (P50 : 2 ^ 50 = 1125899906842624) by reflexivity.
  destruct (Z.lt_ge_cases n 3) as [Hsmall|Hbig].
  - (* no bit is dropped *)
    assert (Ea : a = 0) by lia. subst a.
    assert (Er : r = n) by lia. subst r.
    assert (Hc : n = 0 \/ n = 1 \/ n = 2) by lia.
    destruct Hc as [E|[E|E]]; rewrite E; reflexivity.
  - set (p := m * n).
    assert (Hp : 2 ^ 53 <= p) by (unfold p; lia).
    assert (Ep : p = a * 2 ^ 54 + (a + r * m)) by (unfold p; lia).
    destruct (binade Hp) as (Hs & Hlo & Hhi).
    destruct (Z.eqb_spec r 0) as [->|Hr0].
    + (* a multiple of five: the excess [a] is rounded away *)
      set (shift := Z.log2 p - 52) in *.
      assert (Hsh : shift < 55).
      { apply (Z.pow_lt_mono_r_iff 2); [lia|lia|].
        assert (2 ^ 55 = 36028797018963968) by reflexivity. lia. }
      assert (E54 : 2 ^ 54 = 2 ^ (54 - shift) * 2 ^ shift).
      { rewrite <- Z.pow_add_r by lia. f_equal. lia. }
      rewrite (@round_binary64_down p (a * 2 ^ (54 - shift)) a Hp).
      * fold shift. rewrite <- Z.mul_assoc, <- E54.
        rewrite Z.add_0_r. apply ceil54_unique. lia.
      * fold shift. rewrite <- Z.mul_assoc, <- E54. lia.
      * lia.
      * fold shift. lia.
    + destruct (round_binary64_near Hp) as (h & Hh & Hhp & Hnear).
      fold p. apply ceil54_unique.
      assert (Hc : r = 1 \/ r = 2 \/ r = 3 \/ r = 4) by lia.
      destruct Hc as [E|[E|[E|E]]]; rewrite E in *; lia.
Qed.

End TestSize.

Section TestCount.

(** [ceil(0.2 * N)] as scikit-learn computes it is the least [t] with
    [N <= 5 t]. *)
Lemma n_test_is_ceiling (N : nat) :
  (Z.of_nat N < 2 ^ 50)%Z ->
  N <= 5 * Sk.n_test_of N < N + 5.
Proof.
  intros Hb. unfold Sk.n_test_of.
  pose proof (Z.div_mod (Z.of_nat N) 5 ltac:(lia)) as Hdm.
  pose proof (Z.mod_pos_bound (Z.of_nat N) 5 ltac:(lia)) as Hr.
  assert (Ha : (0 <= Z.of_nat N / 5)%Z) by (apply Z.div_pos; lia).
  rewrite (@ceil_of_fifth (Z.of_nat N) (Z.of_nat N / 5) (Z.of_nat N mod 5))
    by lia.
  destruct (Z.eqb_spec (Z.of_nat N mod 5) 0); lia.
Qed.

End TestCount.

(** ** The train/test split (cell 15) *)

Section Split.

Lemma take_all (a : list (list nat)) : Sk.take a (seq 0 (length a)) = a.
Proof.
  unfold Sk.take. induction a as [|x r IH]; simpl; [reflexivity|].
  f_equal. rewrite <- seq_shift, map_map. exact IH.
Qed.

Lemma take_permutation (a : list (list nat)) (indices : list nat) :
  Permutation indices (seq 0 (length a)) -> Permutation (Sk.take a indices) a.
Proof.
  intros H. rewrite <- (take_all a) at 2.
  unfold Sk.take. now apply Permutation_map.
Qed.

Lemma take_length (a : list (list nat)) (i : list nat) :
  length (Sk.take a i) = length i.
Proof. apply length_map. Qed.

Lemma take_app (a : list (list nat)) (i j : list nat) :
  Sk.take a (i ++ j) = Sk.take a i ++ Sk.take a j.
Proof. apply map_app. Qed.

(** A list of [N] indices that misses none below [N] is a shuffle of
    them. *)
Lemma covering_is_permutation (l : list nat) (N : nat) :
  length l = N -> (forall i, i < N -> In i l) -> Permutation l (seq 0 N).
Proof.
  intros Hlen Hcov. symmetry. apply NoDup_Permutation_bis.
  - apply seq_NoDup.
  - rewrite length_seq. lia.
  - intros i Hi. apply in_seq in Hi. apply Hcov. lia.
Qed.

Lemma round_fifth_near_ceiling (N t : nat) :
  N <= 5 * t < N + 5 -> Spec.round_fifth N <= t <= Spec.round_fifth N + 1.
Proof.
  intros H. unfold Spec.round_fifth.
  pose proof (Nat.div_mod_eq (2 * N + 5) 10) as E.
  pose proof (Nat.mod_upper_bound (2 * N + 5) 10 ltac:(lia)) as B.
  lia.
Qed.

(** The claim C8 fails for a single example: the corpus "the king" yields
    one sequence, and splitting its one row raises, the train set being
    empty. *)
Lemma split_of_one_example_raises :
  exists p,
    Notebook.prepare (Py.lit "the king") = Returned p
    /\ Notebook.p_X p = [[1]]
    /\ Notebook.p_y p = [[0; 0; 1]]
    /\ Sk.train_test_split [0] (Notebook.p_X p) (Notebook.p_y p) = Raised.
Proof.
  eexists. split; [vm_compute; reflexivity|].
  repeat split.
Qed.

(** C8, amended. Two examples or more are split, whatever the shuffle,
    into a train and a test subset taken at disjoint index sets that
    together hold every index once; the test subset has
    [ceil(0.2 * N)] rows, which is [round(0.2 * N)] or one more, the train
    subset the other rows, and the labels are split at the same indices. *)
Theorem split_is_partition (permutation : list nat) (X y : list (list nat)) :
  let N := length X in
  length y = N ->
  2 <= N ->
  (Z.of_nat N < 2 ^ 50)%Z ->
  Permutation permutation (seq 0 N) ->
  exists ind_train ind_test,
    Sk.train_test_split permutation X y =
    Returned (Sk.take X ind_train, Sk.take X ind_test,
              Sk.take y ind_train, Sk.take y ind_test)
    /\ Permutation (ind_train ++ ind_test) (seq 0 N)
    /\ NoDup (ind_train ++ ind_test)
    /\ (forall i, i < N -> In i ind_train \/ In i ind_test)
    /\ length (Sk.take X ind_train) + length (Sk.take X ind_test) = N
    /\ N <= 5 * length (Sk.take X ind_test) < N + 5
    /\ Spec.round_fifth N <= length (Sk.take X ind_test)
       <= Spec.round_fifth N + 1
    /\ Permutation (Sk.take X ind_train ++ Sk.take X ind_test) X
    /\ Permutation (Sk.take y ind_train ++ Sk.take y ind_test) y.
Proof.
  intros N Hy HN Hb Hperm.
  pose proof (n_test_is_ceiling N Hb) as Hceil.
  assert (Hlen : length permutation = N)
    by (rewrite (Permutation_length Hperm); apply length_seq).
  set (n_test := Sk.n_test_of N) in *.
  exists (skipn n_test permutation), (firstn n_test permutation).
  assert (Hparts : Permutation
                     (skipn n_test permutation ++ firstn n_test permutation)
                     (seq 0 N)).
  { rewrite Permutation_app_comm, firstn_skipn. exact Hperm. }
  assert (Htest : length (firstn n_test permutation) = n_test)
    by (apply firstn_length_le; lia).
  assert (Htrain : length (skipn n_test permutation) = N - n_test)
    by (rewrite length_skipn; lia).
  split.
  { unfold Sk.train_test_split. fold N. rewrite Hy, Nat.eqb_refl.
    cbn [negb]. fold n_test.
    destruct (Nat.eqb_spec (N - n_test) 0) as [E|_]; [lia|].
    rewrite <- Htrain, firstn_all. reflexivity. }
  split; [exact Hparts|].
  split; [apply (Permutation_NoDup (Permutation_sym Hparts)), seq_NoDup|].
  split.
  { intros i Hi. apply in_app_or.
    apply (Permutation_in _ (Permutation_sym Hparts)), in_seq. lia. }
  rewrite !take_length, Htest, Htrain.
  split; [lia|]. split; [exact Hceil|].
  split; [now apply round_fifth_near_ceiling|].
  rewrite <- !take_app.
  split; apply take_permutation; [fold N|rewrite Hy]; exact Hparts.
Qed.

Lemma split_is_partition_sample :
  let X := [[0; 0; 1]; [0; 1; 2]; [1; 2; 3]; [0; 0; 5]; [0; 5; 6]; [5; 6; 1]] in
  let y := [[0; 0; 1; 0; 0; 0; 0]; [0; 0; 0; 1; 0; 0; 0];
            [0; 0; 0; 0; 1; 0; 0]; [0; 0; 0; 0; 0; 0; 1];
            [0; 1; 0; 0; 0; 0; 0]; [0; 0; 1; 0; 0; 0; 0]] in
  let permutation := [3; 0; 5; 1; 4; 2] in
  let N := length X in
  length y = N
  /\ 2 <= N
  /\ (Z.of_nat N < 2 ^ 50)%Z
  /\ exists ind_train ind_test,
       Sk.train_test_split permutation X y =
       Returned (Sk.take X ind_train, Sk.take X ind_test,
                 Sk.take y ind_train, Sk.take y ind_test)
       /\ Permutation (ind_train ++ ind_test) (seq 0 N)
       /\ NoDup (ind_train ++ ind_test)
       /\ (forall i, i < N -> In i ind_train \/ In i ind_test)
       /\ length (Sk.take X ind_train) + length (Sk.take X ind_test) = N
       /\ N <= 5 * length (Sk.take X ind_test) < N + 5
       /\ Spec.round_fifth N <= length (Sk.take X ind_test)
          <= Spec.round_fifth N + 1
       /\ Permutation (Sk.take X ind_train ++ Sk.take X ind_test) X
       /\ Permutation (Sk.take y ind_train ++ Sk.take y ind_test) y.
Proof.
  cbv zeta. split; [reflexivity|]. split; [simpl; lia|].
  split; [reflexivity|].
  apply (@split_is_partition [3; 0; 5; 1; 4; 2]);
    [reflexivity|simpl; lia|reflexivity|].
  apply covering_is_permutation; [reflexivity|].
  simpl. intros i Hi.
  assert (Hc : i = 0 \/ i = 1 \/ i = 2 \/ i = 3 \/ i = 4 \/ i = 5) by lia.
  intuition.
Defined.

End Split.

(** * Further properties *)

(** ** Characters and lines *)

Section Characters.
Import Keras Notebook.

Lemma lower_char_idem (c : ascii) :
  Py.lower_char (Py.lower_char c) = Py.lower_char c.
Proof. destruct c as [[] [] [] [] [] [] [] []]; reflexivity. Qed.

Lemma lower_idem (s : Py.str) : Py.lower (Py.lower s) = Py.lower s.
Proof.
  unfold Py.lower. rewrite map_map. apply map_ext, lower_char_idem.
Qed.

Lemma lower_char_newline (c : ascii) :
  Py.lower_char c = newline <-> c = newline.
Proof.
  destruct c as [[] [] [] [] [] [] [] []]; split; intros H;
    first [reflexivity | discriminate H].
Qed.

Lemma translate_lower_newline : translate (Py.lower_char newline) = space.
Proof. reflexivity. Qed.

Lemma split_nonempty (sep : ascii) (s : Py.str) : Py.split sep s <> [].
Proof.
  destruct s as [|c r]; simpl; [discriminate|].
  destruct (ascii_dec c sep); [discriminate|].
  destruct (Py.split sep r); discriminate.
Qed.

(** Cutting at a separator cuts the pieces apart. *)
Lemma split_app (sep : ascii) (a b : Py.str) :
  Py.split sep (a ++ sep :: b) = Py.split sep a ++ Py.split sep b.
Proof.
  induction a as [|c r IH]; simpl.
  - destruct (ascii_dec sep sep); [reflexivity|congruence].
  - destruct (ascii_dec c sep); [now rewrite IH|].
    rewrite IH.
    pose proof (split_nonempty sep r) as Hne.
    destruct (Py.split sep r) as [|h t]; [congruence|reflexivity].
Qed.

Lemma join_split (sep : ascii) (s : Py.str) :
  Notions.join sep (Py.split sep s) = s.
Proof.
  induction s as [|c r IH]; simpl; [reflexivity|].
  pose proof (split_nonempty sep r) as Hne.
  destruct (ascii_dec c sep) as [->|Hc].
  - destruct (Py.split sep r) as [|h t]; [congruence|].
    simpl in *. now rewrite IH.
  - destruct (Py.split sep r) as [|h t]; [congruence|].
    destruct t as [|h' t']; simpl in *; now rewrite <- IH.
Qed.

Lemma split_map (f : ascii -> ascii) (sep : ascii) (s : Py.str) :
  (forall c, f c = sep <-> c = sep) ->
  Py.split sep (map f s) = map (map f) (Py.split sep s).
Proof.
  intros Hf. induction s as [|c r IH]; simpl; [reflexivity|].
  destruct (ascii_dec (f c) sep) as [E|N], (ascii_dec c sep) as [E'|N'].
  - now rewrite IH.
  - apply (proj1 (Hf c)) in E. congruence.
  - apply (proj2 (Hf c)) in E'. congruence.
  - rewrite IH. destruct (Py.split sep r); reflexivity.
Qed.

Lemma filter_flat_map {A B} (p : B -> bool) (f : A -> list B) (l : list A) :
  filter p (flat_map f l) = flat_map (fun a => filter p (f a)) l.
Proof.
  induction l as [|a r IH]; simpl; [reflexivity|].
  now rewrite filter_app, IH.
Qed.

Lemma translated_app (a b : Py.str) :
  map translate (Py.lower (a ++ b)) =
  map translate (Py.lower a) ++ map translate (Py.lower b).
Proof. unfold Py.lower. now rewrite !map_app. Qed.

Lemma translated_newline (s : Py.str) :
  map translate (Py.lower (newline :: s)) =
  space :: map translate (Py.lower s).
Proof. reflexivity. Qed.

(** The pieces between spaces, before the empty ones are dropped. *)
Lemma pieces_of_lines (lines : list Py.str) :
  lines <> [] ->
  Py.split space (map translate (Py.lower (Notions.join newline lines))) =
  flat_map (fun l => Py.split space (map translate (Py.lower l))) lines.
Proof.
  induction lines as [|l r IH]; [easy|]. intros _.
  destruct r as [|l' r'].
  - simpl. now rewrite app_nil_r.
  - change (Notions.join newline (l :: l' :: r'))
      with (l ++ newline :: Notions.join newline (l' :: r')).
    rewrite translated_app, translated_newline, split_app.
    rewrite IH by discriminate. reflexivity.
Qed.

End Characters.

Section Lines.
Import Keras Notebook.

Lemma words_by_line (text : Py.str) :
  text_to_word_sequence text =
  flat_map text_to_word_sequence (Py.split newline text).
Proof.
  rewrite <- (join_split newline text) at 1.
  unfold text_to_word_sequence.
  rewrite pieces_of_lines by apply split_nonempty.
  apply filter_flat_map.
Qed.

(** X1. Tokenizing the corpus as one text (cell 7) and line by line
    (cell 9) sees the same words in the same order: the words of the text
    are the words of its lines, one line after the other, and the lines
    put together again with newlines are the text. *)
Theorem words_of_lines (text : Py.str) :
  text_to_word_sequence text =
  flat_map text_to_word_sequence (Py.split newline text)
  /\ Notions.join newline (Py.split newline text) = text.
Proof. split; [apply words_by_line|apply join_split]. Qed.

Lemma lowered_words (s : Py.str) :
  text_to_word_sequence (Py.lower s) = text_to_word_sequence s.
Proof. unfold text_to_word_sequence. now rewrite lower_idem. Qed.

Lemma lowered_tokens (tok : Tokenizer) (s : Py.str) :
  text_to_sequence tok (Py.lower s) = text_to_sequence tok s.
Proof. unfold text_to_sequence. now rewrite lowered_words. Qed.

Lemma lowered_sequences (tok : Tokenizer) (data : Py.str) :
  input_sequences tok (Py.lower data) = input_sequences tok data.
Proof.
  rewrite !input_sequences_spec. unfold Py.lower at 1.
  rewrite split_map by apply lower_char_newline.
  rewrite flat_map_concat_map, map_map, <- flat_map_concat_map.
  apply flat_map_ext. intros line.
  change (map Py.lower_char line) with (Py.lower line).
  now rewrite lowered_tokens.
Qed.

(** X2. Lower-casing the file's content (cell 5) changes nothing
    downstream, because the tokenizer lower-cases on its own: the fitted
    vocabulary, the expanded sequences for any vocabulary, the prepared
    training data, and every prediction are the same with and without
    it. *)
Theorem lower_case_is_redundant (data : Py.str) :
  tokenizer (Cells.read_text data) = tokenizer data
  /\ (forall tok,
        input_sequences tok (Cells.read_text data) = input_sequences tok data)
  /\ prepare (Cells.read_text data) = prepare data
  /\ (forall model tok W,
        predict_next_word model tok (Py.lower data) W
        = predict_next_word model tok data W).
Proof.
  unfold Cells.read_text.
  assert (Htok : tokenizer (Py.lower data) = tokenizer data).
  { unfold tokenizer, fit_on_texts. simpl. now rewrite lowered_words. }
  split; [exact Htok|]. split; [intros tok; apply lowered_sequences|].
  split.
  - unfold prepare. now rewrite Htok, lowered_sequences.
  - intros model tok W. unfold predict_next_word, predictor_input.
    simpl hd. now rewrite lowered_tokens.
Qed.

Lemma known_words_tokens (tok : Tokenizer) (ws : list Py.str) :
  (forall w, In w ws -> exists i, Dict.get (word_index tok) w = Some i) ->
  Forall2 (fun w i => Dict.get (word_index tok) w = Some i)
          ws (flat_map (Spec.id_of tok) ws).
Proof.
  induction ws as [|w r IH]; intros H; simpl; [constructor|].
  destruct (H w (or_introl eq_refl)) as (i & Hi).
  unfold Spec.id_of at 1. rewrite Hi. simpl. constructor; [exact Hi|].
  apply IH. intros w' Hw'. apply H. now right.
Qed.

Lemma corpus_word_has_id (text : Py.str) (w : Py.str) :
  In w (text_to_word_sequence text) ->
  exists i, Dict.get (word_index (tokenizer text)) w = Some i.
Proof.
  intros Hin. apply sorted_voc_in in Hin. rewrite <- word_index_keys in Hin.
  destruct (Dict.get (word_index (tokenizer text)) w) as [i|] eqn:E;
    [now exists i|].
  now apply get_none_iff in E.
Qed.

Lemma line_tokens (text line : Py.str) :
  In line (Py.split newline text) ->
  Forall2 (fun w i => Dict.get (word_index (tokenizer text)) w = Some i)
          (text_to_word_sequence line)
          (text_to_sequence (tokenizer text) line).
Proof.
  intros Hline. rewrite text_to_sequence_spec. apply known_words_tokens.
  intros w Hw. apply corpus_word_has_id. rewrite words_by_line.
  apply in_flat_map. now exists line.
Qed.

(** X3. No word of the training corpus is dropped when its lines are
    tokenized with the vocabulary fitted on it: each line's token list is
    its words' ids, word for word; so the number of expanded sequences is
    the sum over the lines of their word count minus one. *)
Theorem training_lines_keep_every_word (text : Py.str) :
  let tok := tokenizer text in
  Forall
    (fun line =>
       Forall2 (fun w i => Dict.get (word_index tok) w = Some i)
               (text_to_word_sequence line)
               (hd [] (texts_to_sequences tok [line])))
    (Py.split newline text)
  /\ length (input_sequences tok text) =
     list_sum (map (fun line => length (text_to_word_sequence line) - 1)
                   (Py.split newline text)).
Proof.
  intros tok. split.
  - apply Forall_forall. intros line Hline. now apply line_tokens.
  - rewrite input_sequences_spec, length_flat_map.
    f_equal. apply map_ext_in. intros line Hline.
    rewrite prefixes_length.
    now rewrite (Forall2_length (line_tokens text line Hline)).
Qed.

End Lines.

(** ** Words of the vocabulary *)

Section VocabularyWords.
Import Keras Notebook.

Lemma split_pieces (sep : ascii) (s p : Py.str) :
  In p (Py.split sep s) -> ~ In sep p /\ forall c, In c p -> In c s.
Proof.
  revert p. induction s as [|c r IH]; intros p; simpl.
  - intros [<-|[]]. split; [easy|]. intros c [].
  - pose proof (split_nonempty sep r) as Hne.
    destruct (ascii_dec c sep) as [->|Hc].
    + intros [<-|Hp]; [split; [easy|intros c []]|].
      destruct (IH p Hp) as [H1 H2]. split; [exact H1|].
      intros c Hc. right. auto.
    + destruct (Py.split sep r) as [|h t]; [congruence|].
      intros [<-|Hp].
      * destruct (IH h (or_introl eq_refl)) as [H1 H2]. split.
        -- intros [E|Hin]; [congruence|auto].
        -- intros c' [<-|Hc']; [now left|right; auto].
      * destruct (IH p (or_intror Hp)) as [H1 H2]. split; [exact H1|].
        intros c' Hc'. right. auto.
Qed.

Lemma split_without_sep (sep : ascii) (s : Py.str) :
  ~ In sep s -> Py.split sep s = [s].
Proof.
  induction s as [|c r IH]; simpl; [reflexivity|]. intros H.
  destruct (ascii_dec c sep) as [->|Hc]; [exfalso; apply H; now left|].
  rewrite IH by tauto. reflexivity.
Qed.

Lemma translated_idem (c : ascii) :
  translate (Py.lower_char (translate (Py.lower_char c)))
  = translate (Py.lower_char c).
Proof. destruct c as [[] [] [] [] [] [] [] []]; reflexivity. Qed.

(** A word produced by the tokenizer is tokenized as itself. *)
Lemma word_is_one_word (text w : Py.str) :
  In w (text_to_word_sequence text) -> text_to_word_sequence w = [w].
Proof.
  unfold text_to_word_sequence. intros H.
  apply filter_In in H as [Hin Hne].
  apply split_pieces in Hin as [Hsp Hch].
  assert (Hfix : map translate (Py.lower w) = w).
  { unfold Py.lower. rewrite map_map.
    rewrite <- (map_id w) at 2. apply map_ext_in. intros c Hc.
    apply Hch in Hc. unfold Py.lower in Hc. rewrite map_map in Hc.
    apply in_map_iff in Hc as (c' & <- & _). apply translated_idem. }
  rewrite Hfix, split_without_sep by exact Hsp.
  simpl. now rewrite Hne.
Qed.

(** X4. Word to id and back: a word of the fitted vocabulary, given alone
    to [texts_to_sequences], yields exactly its id, and the reverse lookup
    that ends [predict_next_word] turns that id back into the word. *)
Theorem vocabulary_round_trip (text w : Py.str) (i : nat) :
  let tok := tokenizer text in
  Dict.get (word_index tok) w = Some i ->
  texts_to_sequences tok [w] = [[i]]
  /\ first_match (word_index tok) [i] = Returned (Some w).
Proof.
  intros tok Hget. split.
  - assert (Hw : In w (text_to_word_sequence text)).
    { apply sorted_voc_in. rewrite <- word_index_keys.
      eapply get_some_key, Hget. }
    simpl. rewrite text_to_sequence_spec, (word_is_one_word _ _ Hw).
    simpl. unfold Spec.id_of. fold tok. now rewrite Hget.
  - destruct (@first_match_cases _ i (fitted_keys_nodup text))
      as [(w' & Hw' & Hget')|(_ & Hno)].
    + fold tok in Hw', Hget'. rewrite Hw'. do 2 f_equal.
      exact (fitted_ids_unique text _ _ Hget' Hget).
    + now apply Hno in Hget.
Qed.

Lemma vocabulary_round_trip_sample :
  let tok := tokenizer Sample.corpus in
  Dict.get (word_index tok) (Py.lit "king") = Some 2
  /\ texts_to_sequences tok [Py.lit "king"] = [[2]]
  /\ first_match (word_index tok) [2] = Returned (Some (Py.lit "king")).
Proof.
  cbv zeta. split; [vm_compute; reflexivity|].
  apply (@vocabulary_round_trip Sample.corpus (Py.lit "king") 2).
  vm_compute. reflexivity.
Defined.

End VocabularyWords.

(** ** What a prediction depends on *)

Section Context.
Import Keras Notebook.

Lemma predictor_input_window (tok : Tokenizer) (text : Py.str) (W : nat) :
  2 <= W ->
  let kept := Notions.lastn (W - 1) (text_to_sequence tok text) in
  predictor_input tok text (Z.of_nat W) =
  Returned [repeat 0 (W - 1 - length kept) ++ kept].
Proof.
  intros HW kept. unfold kept, Notions.lastn.
  set (tl := text_to_sequence tok text).
  destruct (Nat.le_gt_cases W (length tl)) as [H|H].
  - rewrite predictor_input_long by easy. fold tl.
    rewrite length_skipn.
    replace (W - 1 - (length tl - (length tl - (W - 1)))) with 0 by lia.
    reflexivity.
  - rewrite predictor_input_short by easy. fold tl.
    replace (length tl - (W - 1)) with 0 by lia. reflexivity.
Qed.

(** X5. A prediction reads the input text only through the last [W - 1]
    ids of its token list: the row given to the network is those ids,
    left-padded with zeros, and two texts whose token lists end in the same
    [W - 1] ids (or are the same shorter list) get the same prediction. *)
Theorem prediction_reads_last_tokens (model : list nat -> list Q)
    (tok : Tokenizer) (text : Py.str) (W : nat) :
  let window t :=
    Notions.lastn (W - 1) (hd [] (texts_to_sequences tok [t])) in
  2 <= W ->
  predictor_input tok text (Z.of_nat W) =
  Returned [repeat 0 (W - 1 - length (window text)) ++ window text]
  /\ forall text',
       window text' = window text ->
       predict_next_word model tok text' (Z.of_nat W)
       = predict_next_word model tok text (Z.of_nat W).
Proof.
  cbv zeta. cbn [hd texts_to_sequences map]. intros HW. split.
  - now apply predictor_input_window.
  - intros text' E. unfold predict_next_word.
    rewrite !predictor_input_window by easy. cbv zeta. now rewrite E.
Qed.

Lemma prediction_reads_last_tokens_sample :
  let tok := Sample.tokenizer in
  let W := 4 in
  let text := Py.lit "the king is dead long live" in
  let window t :=
    Notions.lastn (W - 1) (hd [] (texts_to_sequences tok [t])) in
  2 <= W
  /\ predictor_input tok text (Z.of_nat W) =
     Returned [repeat 0 (W - 1 - length (window text)) ++ window text]
  /\ forall text',
       window text' = window text ->
       predict_next_word Sample.model tok text' (Z.of_nat W)
       = predict_next_word Sample.model tok text (Z.of_nat W).
Proof.
  cbv zeta. split; [lia|].
  apply (@prediction_reads_last_tokens Sample.model Sample.tokenizer
           (Py.lit "the king is dead long live") 4). lia.
Defined.

(** X6. With a network that scores exactly [total_words] classes (the
    final [Dense(total_words)] layer), the predictor returns [None] exactly
    when class 0, the padding value, has the first highest score; any other
    winning class is the id of a word, which is returned. *)
Theorem no_match_is_class_zero (model : list nat -> list Q)
    (corpus text : Py.str) (W : nat) :
  let tok := tokenizer corpus in
  let result := predict_next_word model tok text (Z.of_nat W) in
  2 <= W ->
  (forall row, length (model row) = total_words tok) ->
  exists row j,
    predictor_input tok text (Z.of_nat W) = Returned [row]
    /\ Np.argmax (model row) = Returned j
    /\ j < total_words tok
    /\ (result = Returned None <-> j = 0)
    /\ (j <> 0 ->
        exists w, result = Returned (Some w)
                  /\ Dict.get (word_index tok) w = Some j).
Proof.
  cbv zeta. intros HW Hmodel.
  destruct (predictor_input_row (tokenizer corpus) text HW)
    as (row & Hrow & _).
  assert (Hne : model row <> []).
  { intros E. specialize (Hmodel row). rewrite E in Hmodel.
    unfold total_words in Hmodel. simpl in Hmodel. lia. }
  destruct (argmax_first_max Hne) as (j & Hj & Hmax).
  exists row, j. rewrite (predict_next_word_run _ _ _ _ Hrow Hj).
  assert (Hlt : j < total_words (tokenizer corpus))
    by (rewrite <- (Hmodel row); apply Hmax).
  split; [exact Hrow|]. split; [exact Hj|]. split; [exact Hlt|].
  destruct (@first_match_cases _ j (fitted_keys_nodup corpus))
    as [(w & Hw & Hget)|(Hnone & Hno)].
  - assert (j <> 0) by (intros ->; now apply fitted_no_zero in Hget).
    split; [split; [rewrite Hw; discriminate|easy]|].
    intros _. now exists w.
  - assert (j = 0).
    { destruct (Nat.eq_dec j 0) as [E|N]; [exact E|]. exfalso.
      destruct (@fitted_id_has_word corpus j) as (w & Hw).
      - unfold total_words in Hlt. lia.
      - now apply Hno in Hw. }
    split; [easy|]. intros N. congruence.
Qed.

Lemma no_match_is_class_zero_sample :
  let tok := tokenizer Sample.corpus in
  let text := Py.lit "long live the" in
  let result := predict_next_word Sample.model tok text (Z.of_nat 4) in
  2 <= 4
  /\ (forall row, length (Sample.model row) = total_words tok)
  /\ exists row j,
       predictor_input tok text (Z.of_nat 4) = Returned [row]
       /\ Np.argmax (Sample.model row) = Returned j
       /\ j < total_words tok
       /\ (result = Returned None <-> j = 0)
       /\ (j <> 0 ->
           exists w, result = Returned (Some w)
                     /\ Dict.get (word_index tok) w = Some j).
Proof.
  cbv zeta. split; [lia|]. split; [reflexivity|].
  apply (@no_match_is_class_zero Sample.model Sample.corpus
           (Py.lit "long live the") 4); [lia|reflexivity].
Defined.

End Context.

(** ** The width and the failure of the preparation *)

Section Width.
Import Keras Notebook.

Lemma full_line_is_sequence (tok : Tokenizer) (text line : Py.str) :
  In line (Py.split newline text) ->
  2 <= length (text_to_sequence tok line) ->
  In (text_to_sequence tok line) (input_sequences tok text).
Proof.
  intros Hline Hlen. rewrite input_sequences_spec. apply in_flat_map.
  exists line. split; [exact Hline|]. apply prefixes_In.
  exists (length (text_to_sequence tok line)). split; [lia|].
  now rewrite firstn_all.
Qed.

(** X7. The width computed in cell 11 is the token count of the longest
    line: no line of the corpus has more ids than [max_sequence_len], and
    some line has exactly that many. *)
Theorem width_is_longest_line (tok : Tokenizer) (text : Py.str) (W : nat) :
  let tokens line := hd [] (texts_to_sequences tok [line]) in
  max_sequence_len (input_sequences tok text) = Returned W ->
  (forall line, In line (Py.split newline text) -> length (tokens line) <= W)
  /\ exists line,
       In line (Py.split newline text) /\ length (tokens line) = W.
Proof.
  cbv zeta. cbn [hd texts_to_sequences map]. intros HW.
  pose proof (width_at_least_two _ _ HW) as H2.
  apply max_sequence_len_spec in HW as (Hle & s & Hs & Hlen).
  assert (Hall : forall line, In line (Py.split newline text) ->
                 length (text_to_sequence tok line) <= W).
  { intros line Hline.
    destruct (Nat.le_gt_cases 2 (length (text_to_sequence tok line)))
      as [H|H]; [|lia].
    apply Hle. now apply full_line_is_sequence. }
  split; [exact Hall|].
  apply sequence_is_prefix in Hs as (line & k & Hline & Hk & ->).
  exists line. split; [exact Hline|].
  rewrite firstn_length_le in Hlen by lia.
  specialize (Hall line Hline). lia.
Qed.

Lemma width_is_longest_line_sample :
  let tok := Sample.tokenizer in
  let text := Sample.corpus in
  let tokens line := hd [] (texts_to_sequences tok [line]) in
  max_sequence_len (input_sequences tok text) = Returned 4
  /\ (forall line,
        In line (Py.split newline text) -> length (tokens line) <= 4)
  /\ exists line,
       In line (Py.split newline text) /\ length (tokens line) = 4.
Proof.
  cbv zeta. split; [vm_compute; reflexivity|].
  apply (@width_is_longest_line Sample.tokenizer Sample.corpus 4).
  vm_compute. reflexivity.
Defined.

Lemma flat_map_nil {A B} (f : A -> list B) (l : list A) :
  flat_map f l = [] <-> Forall (fun a => f a = []) l.
Proof.
  induction l as [|a r IH]; simpl.
  - split; [constructor|reflexivity].
  - split.
    + intros H. apply app_eq_nil in H as [Ha Hr].
      constructor; [exact Ha|now apply IH].
    + intros H. inversion H as [|? ? Ha Hr]; subst.
      rewrite Ha. now apply IH.
Qed.

Lemma no_sequences_iff (text : Py.str) :
  input_sequences (tokenizer text) text = [] <->
  Forall (fun line => length (text_to_word_sequence line) < 2)
         (Py.split newline text).
Proof.
  rewrite input_sequences_spec, flat_map_nil, !Forall_forall.
  split; intros H line Hline; specialize (H line Hline).
  - apply (f_equal (@length _)) in H. rewrite prefixes_length in H.
    rewrite (Forall2_length (line_tokens text line Hline)). simpl in H. lia.
  - apply length_zero_iff_nil. rewrite prefixes_length.
    rewrite <- (Forall2_length (line_tokens text line Hline)). lia.
Qed.

(** X8. The preparation (cells 7 to 13) raises exactly when no line of
    the corpus has two words, the maximum of cell 11 being taken over an
    empty list then; as soon as one line has two words it does not raise. *)
Theorem prepare_raises_iff (text : Py.str) :
  prepare text = Raised <->
  Forall (fun line => length (text_to_word_sequence line) < 2)
         (Py.split newline text).
Proof.
  rewrite <- no_sequences_iff. split.
  - intros Hraised.
    destruct (input_sequences (tokenizer text) text) as [|s r] eqn:E;
      [reflexivity|].
    destruct (@max_sequence_len_total (s :: r)) as (W & HW); [discriminate|].
    rewrite <- E in HW. rewrite (@prepare_runs text W HW) in Hraised.
    discriminate.
  - intros E. unfold prepare. rewrite E. reflexivity.
Qed.



End Width.

(** ** Padding again, and the split once more *)

Section PaddingAgain.
Import Keras Notebook.




End PaddingAgain.

Section SplitAgain.

Lemma take_pairs (X y : list (list nat)) (indices : list nat) :
  combine (Sk.take X indices) (Sk.take y indices) =
  map (fun i => (nth i X [], nth i y [])) indices.
Proof.
  unfold Sk.take. induction indices as [|i r IH]; simpl; [reflexivity|].
  now rewrite IH.
Qed.

Lemma all_pairs (X y : list (list nat)) :
  length y = length X ->
  map (fun i => (nth i X [], nth i y [])) (seq 0 (length X)) = combine X y.
Proof.
  revert y. induction X as [|a r IH]; intros [|b t] H; simpl in *;
    try discriminate; [reflexivity|].
  f_equal. rewrite <- seq_shift, map_map. apply IH. lia.
Qed.

(** X11. The split keeps every input with its own label: the train pairs
    and the test pairs together are the pairs of [X] and [y], each once,
    and the two halves of each subset have the same length. *)
Theorem split_keeps_pairs (permutation : list nat) (X y : list (list nat)) :
  let N := length X in
  length y = N ->
  2 <= N ->
  (Z.of_nat N < 2 ^ 50)%Z ->
  Permutation permutation (seq 0 N) ->
  exists X_train X_test y_train y_test,
    Sk.train_test_split permutation X y =
    Returned (X_train, X_test, y_train, y_test)
    /\ length X_train = length y_train
    /\ length X_test = length y_test
    /\ Permutation (combine X_train y_train ++ combine X_test y_test)
                   (combine X y).
Proof.
  intros N Hy HN Hb Hperm.
  pose proof (n_test_is_ceiling N Hb) as Hceil.
  assert (Hlen : length permutation = N)
    by (rewrite (Permutation_length Hperm); apply length_seq).
  set (n_test := Sk.n_test_of N) in *.
  assert (Htrain : length (skipn n_test permutation) = N - n_test)
    by (rewrite length_skipn; lia).
  eexists _, _, _, _. split.
  { unfold Sk.train_test_split. fold N. rewrite Hy, Nat.eqb_refl.
    cbn [negb]. fold n_test.
    destruct (Nat.eqb_spec (N - n_test) 0) as [E|_]; [lia|].
    rewrite <- Htrain, firstn_all. reflexivity. }
  rewrite !take_length. split; [reflexivity|]. split; [reflexivity|].
  rewrite !take_pairs, <- map_app, <- (all_pairs X y Hy).
  apply Permutation_map. fold N.
  rewrite Permutation_app_comm, firstn_skipn. exact Hperm.
Qed.

Lemma split_keeps_pairs_sample :
  let X := [[0; 1]; [1; 2]; [0; 3]] in
  let y := [[0; 0; 1; 0]; [0; 0; 0; 1]; [0; 1; 0; 0]] in
  let permutation := [2; 0; 1] in
  let N := length X in
  length y = N
  /\ 2 <= N
  /\ (Z.of_nat N < 2 ^ 50)%Z
  /\ exists X_train X_test y_train y_test,
       Sk.train_test_split permutation X y =
       Returned (X_train, X_test, y_train, y_test)
       /\ length X_train = length y_train
       /\ length X_test = length y_test
       /\ Permutation (combine X_train y_train ++ combine X_test y_test)
                      (combine X y).
Proof.
  cbv zeta. split; [reflexivity|]. split; [simpl; lia|].
  split; [reflexivity|].
  apply (@split_keeps_pairs [2; 0; 1]);
    [reflexivity|simpl; lia|reflexivity|].
  apply covering_is_permutation; [reflexivity|].
  simpl. intros i Hi.
  assert (Hc : i = 0 \/ i = 1 \/ i = 2) by lia.
  intuition.
Defined.

(** X12. For inputs and labels of the same length the split raises
    exactly when there are fewer than two examples (the train subset would
    be empty); the shuffle plays no part in that. *)
Theorem split_raises_iff (permutation : list nat) (X y : list (list nat)) :
  length y = length X ->
  (Z.of_nat (length X) < 2 ^ 50)%Z ->
  (Sk.train_test_split permutation X y = Raised <-> length X <= 1).
Proof.
  intros Hy Hb. pose proof (n_test_is_ceiling (length X) Hb) as Hceil.
  unfold Sk.train_test_split. rewrite Hy, Nat.eqb_refl. cbn [negb].
  destruct (Nat.eqb_spec (length X - Sk.n_test_of (length X)) 0) as [E|N].
  - split; [intros _; lia|reflexivity].
  - split; [discriminate|intros H; lia].
Qed.

Lemma split_raises_iff_sample :
  let X := [[0; 1]] in
  let y := [[0; 0; 1]] in
  length y = length X
  /\ (Z.of_nat (length X) < 2 ^ 50)%Z
  /\ (Sk.train_test_split [0] X y = Raised <-> length X <= 1).
Proof.
  cbv zeta. split; [reflexivity|]. split; [reflexivity|].
  apply (@split_raises_iff [0] [[0; 1]] [[0; 0; 1]]); reflexivity.
Defined.

End SplitAgain.

(** ** The order of the vocabulary *)

Section Before.
Variable A : Type.
Implicit Types (l p q : list A) (x y z : A).

Lemma before_in l x y : Notions.before l x y -> In x l /\ In y l.
Proof.
  induction l as [|z r IH]; simpl; [easy|].
  intros [[-> Hy]|H]; [tauto|]. apply IH in H. tauto.
Qed.

Lemma before_app_l l q x y :
  Notions.before l x y -> Notions.before (l ++ q) x y.
Proof.
  induction l as [|z r IH]; simpl; [easy|].
  intros [[-> Hy]|H]; [left; split; [reflexivity|]|right; auto].
  apply in_or_app. now left.
Qed.

Lemma before_snoc l x y :
  Notions.before (l ++ [y]) x y <-> In x l \/ Notions.before l x y.
Proof.
  induction l as [|z r IH]; simpl; [tauto|].
  rewrite IH, in_app_iff. simpl. intuition.
Qed.

Lemma before_snoc_other l x y z :
  y <> z -> Notions.before (l ++ [z]) x y -> Notions.before l x y.
Proof.
  intros Hyz. induction l as [|a r IH]; simpl.
  - intros [[_ []]|[]].
  - rewrite in_app_iff. simpl. intros [[-> [H|[H|[]]]]|H]; auto.
    congruence.
Qed.

Lemma before_map {B} (f : B -> A) (m : list B) (b1 b2 : B) :
  Notions.before m b1 b2 -> Notions.before (map f m) (f b1) (f b2).
Proof.
  induction m as [|b r IH]; simpl; [easy|].
  intros [[-> Hy]|H]; [left; split; [reflexivity|now apply in_map]|].
  right. auto.
Qed.

Lemma before_map_inv {B} (f : B -> A) (m : list B) x y :
  Notions.before (map f m) x y ->
  exists b1 b2, f b1 = x /\ f b2 = y /\ Notions.before m b1 b2.
Proof.
  induction m as [|b r IH]; simpl; [easy|].
  intros [[<- Hy]|H].
  - apply in_map_iff in Hy as (b2 & <- & Hb2).
    exists b, b2. repeat split. left. now split.
  - destruct (IH H) as (b1 & b2 & H1 & H2 & Hb).
    exists b1, b2. repeat split; auto.
Qed.

End Before.

Section Order.
Import Keras Notebook.

(** Insertion keeps the order of the others, puts the new entry behind
    the larger ones and in front of the rest. *)
Lemma insert_desc_before (a : Py.str * nat) (S' : list (Py.str * nat))
    (x y : Py.str * nat) :
  (forall u v, Notions.before S' u v -> snd v <= snd u) ->
  Notions.before (insert_desc a S') x y ->
  (x = a /\ In y S' /\ snd y <= snd a)
  \/ (y = a /\ In x S' /\ snd a < snd x)
  \/ Notions.before S' x y.
Proof.
  induction S' as [|z r IH]; intros Hsorted; simpl.
  - intros [[_ []]|[]].
  - assert (Hr : forall u v, Notions.before r u v -> snd v <= snd u)
      by (intros u v H; apply Hsorted; now right).
    destruct (Nat.ltb_spec (snd a) (snd z)) as [Hlt|Hge]; simpl.
    + intros [[-> Hy]|H].
      * apply (Permutation_in _ (insert_desc_perm a r)) in Hy.
        destruct Hy as [<-|Hy]; [right; left; tauto|].
        right; right; left. tauto.
      * destruct (IH Hr H) as [(-> & Hy & Hle)|[(-> & Hx & Hl)|Hb]];
          [left|right; left|right; right; right]; tauto.
    + intros [[<- Hy]|H]; [|tauto].
      left. split; [reflexivity|]. split; [exact Hy|].
      destruct Hy as [<-|Hy]; [exact Hge|].
      assert (snd y <= snd z) by (apply Hsorted; left; tauto). lia.
Qed.

(** The sort is descending and stable. *)
Lemma sort_desc_stable (l : list (Py.str * nat)) (x y : Py.str * nat) :
  Notions.before (sort_desc l) x y ->
  snd y < snd x \/ (snd x = snd y /\ Notions.before l x y).
Proof.
  revert x y. induction l as [|a r IH]; intros x y; simpl; [easy|].
  intros H. apply insert_desc_before in H.
  - destruct H as [(-> & Hy & Hle)|[(-> & Hx & Hl)|Hb]].
    + apply (Permutation_in _ (sort_desc_perm r)) in Hy.
      destruct (Nat.eq_dec (snd y) (snd a)) as [E|N]; [|left; lia].
      right. split; [now symmetry|]. left. tauto.
    + left. exact Hl.
    + destruct (IH _ _ Hb) as [H|[E H]]; [now left|right; tauto].
  - intros u v Huv. destruct (IH _ _ Huv) as [Huv'|[E _]]; lia.
Qed.

Lemma get_set (d : Dict.t nat) (k k' : Py.str) (v : nat) :
  Dict.get (Dict.set d k v) k' =
  if Py.str_eq_dec k' k then Some v else Dict.get d k'.
Proof.
  induction d as [|[k0 v0] r IH]; simpl.
  - reflexivity.
  - destruct (Py.str_eq_dec k k0) as [->|Hk]; simpl.
    + destruct (Py.str_eq_dec k' k0); reflexivity.
    + rewrite IH.
      destruct (Py.str_eq_dec k' k0) as [->|]; [|reflexivity].
      destruct (Py.str_eq_dec k0 k); congruence.
Qed.

Lemma count_occ_snoc (ws : list Py.str) (w w' : Py.str) :
  count_occ Py.str_eq_dec (ws ++ [w]) w' =
  count_occ Py.str_eq_dec ws w' + (if Py.str_eq_dec w w' then 1 else 0).
Proof.
  rewrite count_occ_app. simpl.
  destruct (Py.str_eq_dec w w'); reflexivity.
Qed.

(** Every count is the number of occurrences of its word. *)
Lemma counted_values (ws : list Py.str) (w : Py.str) (c : nat) :
  Dict.get (fold_left count_word ws []) w = Some c ->
  c = count_occ Py.str_eq_dec ws w.
Proof.
  revert w c. induction ws as [|w0 r IH] using rev_ind; intros w c.
  - discriminate.
  - rewrite fold_left_app. simpl. rewrite count_occ_snoc.
    set (wc := fold_left count_word r []) in *.
    unfold count_word.
    destruct (Dict.get wc w0) as [c0|] eqn:E0; rewrite get_set;
      destruct (Py.str_eq_dec w w0) as [->|Hw].
    + intros [= <-]. apply IH in E0.
      destruct (Py.str_eq_dec w0 w0); [lia|congruence].
    + intros H. apply IH in H.
      destruct (Py.str_eq_dec w0 w); [congruence|lia].
    + intros [= <-].
      assert (H0 : count_occ Py.str_eq_dec r w0 = 0).
      { apply count_occ_not_In. intros Hin.
        apply get_none_iff in E0. apply E0.
        apply counted_keys_in. now right. }
      destruct (Py.str_eq_dec w0 w0); [lia|congruence].
    + intros H. apply IH in H.
      destruct (Py.str_eq_dec w0 w); [congruence|lia].
Qed.

Lemma first_occurrence (ws : list Py.str) (w : Py.str) :
  In w ws -> exists p q, ws = p ++ w :: q /\ ~ In w p.
Proof.
  induction ws as [|a r IH]; [easy|]. intros Hin.
  destruct (Py.str_eq_dec a w) as [->|Ha].
  - exists [], r. split; [reflexivity|easy].
  - destruct Hin as [E|Hin]; [congruence|].
    destruct (IH Hin) as (p & q & -> & Hp).
    exists (a :: p), q. split; [reflexivity|].
    intros [E|H]; [congruence|auto].
Qed.

Lemma occurs_first_app (ws r : list Py.str) (w1 w2 : Py.str) :
  Notions.occurs_first ws w1 w2 -> Notions.occurs_first (ws ++ r) w1 w2.
Proof.
  intros (p & q & -> & H1 & H2). exists p, (q ++ r).
  split; [now rewrite <- app_assoc|tauto].
Qed.

(** The counted words stand in the order of their first occurrence. *)
Lemma counted_order (ws : list Py.str) (w1 w2 : Py.str) :
  Notions.before (Dict.keys (fold_left count_word ws [])) w1 w2 ->
  Notions.occurs_first ws w1 w2.
Proof.
  revert w1 w2. induction ws as [|w0 r IH] using rev_ind; intros w1 w2.
  - simpl. easy.
  - rewrite fold_left_app. simpl. rewrite count_word_keys.
    set (wc := fold_left count_word r []) in *.
    destruct (in_dec Py.str_eq_dec w0 (Dict.keys wc)) as [Hin|Hout].
    + intros H. apply occurs_first_app. auto.
    + intros H.
      destruct (Py.str_eq_dec w2 w0) as [->|H2].
      * apply before_snoc in H as [H|H]; [|apply occurs_first_app; auto].
        assert (Hw1 : In w1 r).
        { apply (counted_keys_in r [] w1) in H. simpl in H. tauto. }
        destruct (first_occurrence _ _ Hw1) as (p & q & -> & Hp).
        exists p, (q ++ [w0]). split; [now rewrite <- app_assoc|].
        split; [exact Hp|]. intros Hw0. apply Hout.
        apply (counted_keys_in (p ++ w1 :: q) [] w0). right.
        apply in_or_app. now left.
      * apply before_snoc_other in H; [|exact H2].
        apply occurs_first_app. auto.
Qed.

(** In a dictionary numbered from [a] on, a smaller number stands
    earlier. *)
Lemma numbered_order (voc : list Py.str) (a : nat) (w1 w2 : Py.str)
    (i1 i2 : nat) :
  Dict.get (combine voc (seq a (length voc))) w1 = Some i1 ->
  Dict.get (combine voc (seq a (length voc))) w2 = Some i2 ->
  i1 < i2 ->
  Notions.before voc w1 w2.
Proof.
  revert a. induction voc as [|v r IH]; intros a; simpl; [discriminate|].
  assert (Hlater : forall w i,
            Dict.get (combine r (seq (S a) (length r))) w = Some i ->
            S a <= i /\ In w r).
  { intros w i H. split.
    - apply get_some_value in H. unfold Dict.values in H.
      rewrite combine_snd in H by now rewrite length_seq.
      apply in_seq in H. lia.
    - apply get_some_key in H. unfold Dict.keys in H.
      now rewrite combine_fst in H by now rewrite length_seq. }
  destruct (Py.str_eq_dec w1 v) as [->|H1], (Py.str_eq_dec w2 v) as [->|H2].
  - intros [= <-] [= <-]. lia.
  - intros [= <-] H _. left. split; [reflexivity|]. now apply Hlater in H.
  - intros H [= <-] Hlt. apply Hlater in H. lia.
  - intros Hw1 Hw2 Hlt. right. eapply IH; eauto.
Qed.

(** X13. The ids rank the words by frequency: of two words of the fitted
    vocabulary, the one with the smaller id occurs at least as often in the
    corpus, and when both occur equally often it is the one that occurs
    first. In particular the word of id 1 is a most frequent one. *)
Theorem vocabulary_order (text w1 w2 : Py.str) (i1 i2 : nat) :
  let ws := text_to_word_sequence text in
  let wi := word_index (tokenizer text) in
  let count w := count_occ Py.str_eq_dec ws w in
  Dict.get wi w1 = Some i1 ->
  Dict.get wi w2 = Some i2 ->
  i1 < i2 ->
  count w2 <= count w1
  /\ (count w1 = count w2 -> Notions.occurs_first ws w1 w2).
Proof.
  intros ws wi count H1 H2 Hlt. unfold wi in H1, H2.
  rewrite word_index_fit in H1, H2.
  pose proof (numbered_order _ _ _ _ H1 H2 Hlt) as Hb.
  unfold Spec.sorted_voc in Hb. fold ws in Hb.
  set (wc := fold_left count_word ws []) in *.
  apply before_map_inv in Hb as ([u1 c1] & [u2 c2] & E1 & E2 & Hb).
  simpl in E1, E2. subst u1 u2.
  assert (Hcount : forall w c, In (w, c) (sort_desc wc) -> c = count w).
  { intros w c Hin.
    apply (Permutation_in _ (sort_desc_perm wc)) in Hin.
    apply in_get_some in Hin; [now apply counted_values in Hin|].
    apply (counted_keys_nodup ws []). constructor. }
  destruct (before_in _ _ _ Hb) as [Hin1 Hin2].
  apply Hcount in Hin1, Hin2.
  apply sort_desc_stable in Hb. simpl in Hb. subst c1 c2.
  destruct Hb as [Hlt'|[E Hb]]; split; try lia.
  intros _. apply counted_order.
  apply (before_map fst) in Hb. exact Hb.
Qed.

Lemma vocabulary_order_sample :
  let text := Sample.corpus in
  let ws := text_to_word_sequence text in
  let wi := word_index (tokenizer text) in
  let count w := count_occ Py.str_eq_dec ws w in
  let w1 := Py.lit "king" in
  let w2 := Py.lit "is" in
  Dict.get wi w1 = Some 2
  /\ Dict.get wi w2 = Some 3
  /\ 2 < 3
  /\ count w2 <= count w1
  /\ (count w1 = count w2 -> Notions.occurs_first ws w1 w2).
Proof.
  cbv zeta. split; [vm_compute; reflexivity|].
  split; [vm_compute; reflexivity|]. split; [lia|].
  apply (@vocabulary_order Sample.corpus (Py.lit "king") (Py.lit "is") 2 3);
    [vm_compute; reflexivity|vm_compute; reflexivity|lia].
Defined.

End Order.

(** ** The shape of words, and the labels *)

Section Shapes.
Import Keras Notebook.

Lemma translated_fixed (c : ascii) :
  let d := translate (Py.lower_char c) in
  translate d = d /\ Py.lower_char d = d.
Proof. destruct c as [[] [] [] [] [] [] [] []]; split; reflexivity. Qed.

Lemma space_not_filtered : ~ In space filters.
Proof.
  destruct (in_dec ascii_dec space filters) as [H|H] eqn:E; [|exact H].
  vm_compute in E. discriminate E.
Qed.

Lemma fixed_not_filtered (d : ascii) : translate d = d -> ~ In d filters.
Proof.
  unfold translate. intros H Hin.
  destruct (in_dec ascii_dec d filters) as [_|N]; [|contradiction].
  subst d. exact (space_not_filtered Hin).
Qed.

(** X14. Every word the tokenizer produces is non-empty, has no space,
    none of the filtered punctuation characters and no upper-case letter,
    and is tokenized as itself when given back as a text. *)
Theorem words_are_normalised (text w : Py.str) :
  In w (text_to_word_sequence text) ->
  w <> []
  /\ Forall (fun c => c <> space /\ ~ In c filters /\ Py.lower_char c = c) w
  /\ text_to_word_sequence w = [w].
Proof.
  intros Hw. split; [|split; [|exact (word_is_one_word _ _ Hw)]].
  - unfold text_to_word_sequence in Hw. apply filter_In in Hw as [_ Hne].
    now destruct w.
  - unfold text_to_word_sequence in Hw. apply filter_In in Hw as [Hin _].
    apply split_pieces in Hin as [Hsp Hch].
    apply Forall_forall. intros c Hc. split; [intros ->; auto|].
    apply Hch in Hc. unfold Py.lower in Hc. rewrite map_map in Hc.
    apply in_map_iff in Hc as (c' & <- & _).
    destruct (translated_fixed c') as [Ht Hl].
    split; [now apply fixed_not_filtered|exact Hl].
Qed.

Lemma words_are_normalised_sample :
  let text := Py.lit "Long live the King! Don't stop." in
  let w := Py.lit "don't" in
  In w (text_to_word_sequence text)
  /\ w <> []
  /\ Forall (fun c => c <> space /\ ~ In c filters /\ Py.lower_char c = c) w
  /\ text_to_word_sequence w = [w].
Proof.
  cbv zeta.
  assert (H : In (Py.lit "don't")
                 (text_to_word_sequence
                    (Py.lit "Long live the King! Don't stop.")))
    by (vm_compute; tauto).
  split; [exact H|].
  exact (@words_are_normalised _ _ H).
Defined.

Lemma last_of_prefixes (l : list nat) :
  map (fun s => last s 0) (Spec.prefixes l) = tl l.
Proof.
  unfold Spec.prefixes. rewrite map_map.
  apply (nth_ext _ _ 0 0).
  - rewrite length_map, length_seq. destruct l; simpl; lia.
  - intros k Hk. rewrite length_map, length_seq in Hk.
    rewrite (nth_indep _ 0 ((fun k => last (firstn k l) 0) 0))
      by (rewrite length_map, length_seq; lia).
    rewrite (map_nth (fun k => last (firstn k l) 0)), seq_nth by lia.
    rewrite firstn_last by lia.
    destruct l as [|a r]; [simpl in Hk; lia|]. simpl tl.
    replace (2 + k - 1) with (S k) by lia. reflexivity.
Qed.

(** X15. The training labels, in order, are the ids of each line without
    the first id of the line: every occurrence of a word other than the
    first of its line is the target of exactly one training row. *)
Theorem labels_are_line_tails (text : Py.str) (W : nat) :
  let tok := tokenizer text in
  max_sequence_len (input_sequences tok text) = Returned W ->
  exists p,
    prepare text = Returned p
    /\ p_labels p =
       flat_map (fun line => tl (hd [] (texts_to_sequences tok [line])))
                (Py.split newline text)
    /\ length (p_X p) = length (p_labels p)
    /\ length (p_y p) = length (p_labels p).
Proof.
  intros tok HW. rewrite (@prepare_runs text W HW).
  eexists. split; [reflexivity|]. cbn [p_labels p_X p_y].
  fold tok. rewrite !length_map. split; [|split; reflexivity].
  rewrite input_sequences_spec.
  induction (Py.split newline text) as [|line r IH]; simpl; [reflexivity|].
  now rewrite map_app, IH, last_of_prefixes.
Qed.

Lemma labels_are_line_tails_sample :
  let text := Sample.corpus in
  let tok := tokenizer text in
  max_sequence_len (input_sequences tok text) = Returned 4
  /\ exists p,
       prepare text = Returned p
       /\ p_labels p =
          flat_map (fun line => tl (hd [] (texts_to_sequences tok [line])))
                   (Py.split newline text)
       /\ length (p_X p) = length (p_labels p)
       /\ length (p_y p) = length (p_labels p).
Proof.
  cbv zeta. split; [vm_compute; reflexivity|].
  apply (@labels_are_line_tails Sample.corpus 4). vm_compute. reflexivity.
Defined.

End Shapes.
